(** * epstein-search: page segmentation and size-bounded partitioning

    A shallow embedding of [prepare_for_meilisearch.py] and [split_json.py].

    - A Python [str] is a sequence of Unicode code points: [text := list char]
      with [char := N].  Slices, [len] and [strip] are operations on that list.
    - The three regular expressions of the program are built from literals and
      greedy one-or-more character classes only; module [Re] gives the
      backtracking reading of exactly that fragment ([re.search], [re.finditer]).
    - The Unicode tables behind [\d] and [\w] outside ASCII are a parameter
      ([UnicodeData]); whitespace ([\s], [str.strip]) is written out in full.
    - The JSON codec is the interface [JsonCodec]; [Json] is a model of
      [json.dumps] / [json.dump] on values without floats.
    - [int] applied to a run of decimal digits is total here (the optional
      digit-count guard of recent interpreters is a runtime setting). *)

From Stdlib Require Import String Ascii DecimalString.
From Stdlib Require Import List ZArith NArith QArith Lia Bool Permutation Sorted.
Import ListNotations.

Set Implicit Arguments.
Close Scope Q_scope.
Set Warnings "-register-all".

(* ================================================================== *)
(** * Part I: definitions *)
(* ================================================================== *)

(** ** Text *)

Definition char := N.
Definition text := list char.

Fixpoint lit (s : string) : text :=
  match s with
  | EmptyString => []
  | String a s' => N_of_ascii a :: lit s'
  end.

(** [s[a:b]] for [0 <= a]; the slice is empty when [b <= a] and is clamped
    at the end of [s], as Python does. *)
Definition slice (s : text) (a b : nat) : text := firstn (b - a) (skipn a s).

Fixpoint join (sep : text) (l : list text) : text :=
  match l with
  | [] => []
  | [x] => x
  | x :: l' => x ++ sep ++ join sep l'
  end.

(** [str(n)] for a Python [int]. *)
Definition decimal (z : Z) : text := lit (NilZero.string_of_int (Z.to_int z)).

(** ** Character classes *)

Module Unicode.

(** [Py_UNICODE_ISSPACE]: what [\s] matches and [str.strip()] removes. *)
Definition is_space (c : char) : bool :=
  ((9 <=? c) && (c <=? 13) || (28 <=? c) && (c <=? 32)
   || (c =? 133) || (c =? 160) || (c =? 5760)
   || (8192 <=? c) && (c <=? 8202)
   || (c =? 8232) || (c =? 8233) || (c =? 8239) || (c =? 8287)
   || (c =? 12288))%N.

Definition is_ascii (c : char) : bool := (c <? 128)%N.

Definition ascii_digit (c : char) : bool := ((48 <=? c) && (c <=? 57))%N.

Definition ascii_alpha (c : char) : bool :=
  ((65 <=? c) && (c <=? 90) || (97 <=? c) && (c <=? 122))%N.

(** The part of the Unicode character database the program consults outside
    ASCII: the value of a decimal digit (general category Nd) and the
    alphanumeric test.  No white-space character is a decimal digit. *)
Class UnicodeData := {
  decimal_value : char -> option N;
  is_alnum : char -> bool;
  decimal_not_space : forall c, is_space c = true -> decimal_value c = None
}.

Section Classes.
Context {ucd : UnicodeData}.

(** [\d] *)
Definition is_digit (c : char) : bool :=
  if is_ascii c then ascii_digit c
  else match decimal_value c with Some _ => true | None => false end.

(** [\w] *)
Definition is_word (c : char) : bool :=
  if is_ascii c then ascii_digit c || ascii_alpha c || (c =? 95)%N
  else is_alnum c || is_digit c.

Definition digit_value (c : char) : N :=
  if is_ascii c then (c - 48)%N
  else match decimal_value c with Some v => v | None => 0%N end.

(** [int(s)] for [s] a run of decimal digits. *)
Definition int_of_digits (s : text) : Z :=
  fold_left (fun acc c => (10 * acc + Z.of_N (digit_value c))%Z) s 0%Z.

End Classes.

(** A database with nothing outside ASCII, for evaluating on ASCII text. *)
Definition ascii_only : UnicodeData :=
  {| decimal_value := fun _ => None;
     is_alnum := fun _ => false;
     decimal_not_space := fun _ _ => eq_refl |}.

(** [s.lstrip()] and [s.rstrip()] *)
Fixpoint lstrip (s : text) : text :=
  match s with
  | c :: s' => if is_space c then lstrip s' else s
  | [] => []
  end.

Definition rstrip (s : text) : text := rev (lstrip (rev s)).

(** [s.strip()] *)
Definition strip (s : text) : text := rstrip (lstrip s).

End Unicode.

(** ** Regular expressions *)

Module Re.

(** One position of a pattern: a literal, a class matched once, a class
    under greedy [+], and the same inside a capturing group. *)
Inductive item :=
| Lit (c : char)
| Cls (p : char -> bool)
| Rep (p : char -> bool)
| Cap (p : char -> bool).

Definition regex := list item.

Definition accepts (it : item) (c : char) : bool :=
  match it with
  | Lit c' => (c =? c')%N
  | Cls p | Rep p | Cap p => p c
  end.

Definition repeats (it : item) : bool :=
  match it with
  | Lit _ | Cls _ => false
  | Rep _ | Cap _ => true
  end.

Definition captures (it : item) : bool :=
  match it with Cap _ => true | _ => false end.

Definition lits (s : string) : regex := map Lit (lit s).

(** Greedy repetition with backtracking: take one more character when the
    class allows it and the rest of the pattern then succeeds; otherwise
    stop here and run the rest of the pattern [k]. *)
Fixpoint greedy (p : char -> bool) (k : text -> option (list text))
  (acc : text) (s : text) : option (list text) :=
  match s with
  | c :: s' =>
      if p c then
        match greedy p k (acc ++ [c]) s' with
        | Some r => Some r
        | None => option_map (cons acc) (k s)
        end
      else option_map (cons acc) (k s)
  | [] => option_map (cons acc) (k s)
  end.

(** Match the pattern at the start of [s]; the result has the text consumed
    by each item, in order. *)
Fixpoint match_here (r : regex) (s : text) {struct r} : option (list text) :=
  match r with
  | [] => Some []
  | it :: r' =>
      match s with
      | [] => None
      | c :: s' =>
          if accepts it c then
            if repeats it then greedy (accepts it) (match_here r') [c] s'
            else option_map (cons [c]) (match_here r' s')
          else None
      end
  end.

(** A match object: where it starts and what each item consumed. *)
Record rmatch := { m_start : nat; m_pieces : list text }.

(** [m.group(0)] *)
Definition group0 (m : rmatch) : text := concat (m_pieces m).

(** [m.end()] *)
Definition m_end (m : rmatch) : nat := m_start m + length (group0 m).

(** [m.group(1)], [m.group(2)], ... as a list. *)
Fixpoint groups_of (r : regex) (ps : list text) : list text :=
  match r, ps with
  | it :: r', p :: ps' =>
      if captures it then p :: groups_of r' ps' else groups_of r' ps'
  | _, _ => []
  end.

(** [re.search]: the match at the leftmost position that has one. *)
Fixpoint search_from (r : regex) (s : text) (pos : nat) : option rmatch :=
  match match_here r s with
  | Some ps => Some {| m_start := pos; m_pieces := ps |}
  | None =>
      match s with
      | [] => None
      | _ :: s' => search_from r s' (S pos)
      end
  end.

Definition search (r : regex) (s : text) : option rmatch := search_from r s 0.

(** [re.finditer]: leftmost matches that do not overlap; [skip] counts the
    characters of the previous match still to be passed over. *)
Fixpoint finditer_from (r : regex) (s : text) (pos skip : nat) : list rmatch :=
  match s with
  | [] =>
      match skip, match_here r [] with
      | O, Some ps => [{| m_start := pos; m_pieces := ps |}]
      | _, _ => []
      end
  | _ :: s' =>
      match skip with
      | S k => finditer_from r s' (S pos) k
      | O =>
          match match_here r s with
          | Some ps =>
              {| m_start := pos; m_pieces := ps |}
                :: finditer_from r s' (S pos) (length (concat ps) - 1)
          | None => finditer_from r s' (S pos) 0
          end
      end
  end.

Definition finditer (r : regex) (s : text) : list rmatch := finditer_from r s 0 0.

(** What a match means: each item consumed a text its class allows. *)
Inductive piece_ok : item -> text -> Prop :=
| piece_one it c :
    repeats it = false -> accepts it c = true -> piece_ok it [c]
| piece_rep it c w :
    repeats it = true -> Forall (fun x => accepts it x = true) (c :: w) ->
    piece_ok it (c :: w).

Definition parses (r : regex) (ps : list text) : Prop := Forall2 piece_ok r ps.

(** [m] is a match of [r] in [s]: its pieces parse, and its text stands in
    [s] at offset [m_start m]. *)
Definition found_at (r : regex) (s : text) (m : rmatch) : Prop :=
  parses r (m_pieces m)
  /\ exists pre rest,
       s = pre ++ group0 m ++ rest /\ length pre = m_start m.

(** [m'] starts at or after the end of [m]. *)
Definition follows (m m' : rmatch) : Prop := m_end m <= m_start m'.

(** [tok] is a text [r] can match, and it occurs in [s]. *)
Definition occurs (r : regex) (s : text) (tok : text) : Prop :=
  (exists ps, parses r ps /\ concat ps = tok)
  /\ exists pre rest, s = pre ++ tok ++ rest.

End Re.

(** ** prepare_for_meilisearch.py *)

Module prepare_for_meilisearch.
Import Unicode Re.

Section WithUnicode.
Context {ucd : UnicodeData}.

Definition colon : char := 58%N.
Definition hyphen : char := 45%N.
Definition slash : char := 47%N.

(** [[\d:]], [[-\w]], [[\d-]], [[\d/]] *)
Definition digit_or_colon (c : char) : bool := is_digit c || (c =? colon)%N.
Definition hyphen_or_word (c : char) : bool := (c =? hyphen)%N || is_word c.
Definition digit_or_hyphen (c : char) : bool := is_digit c || (c =? hyphen)%N.
Definition digit_or_slash (c : char) : bool := is_digit c || (c =? slash)%N.

(** [r'Case\s+[\d:]+[-\w]+'] *)
Definition case_pattern : regex :=
  lits "Case" ++ [Rep is_space; Rep digit_or_colon; Rep hyphen_or_word].

(** [r'Page\s+(\d+)\s+of\s+(\d+)'] *)
Definition page_info_pattern : regex :=
  lits "Page" ++ [Rep is_space; Cap is_digit; Rep is_space]
    ++ lits "of" ++ [Rep is_space; Cap is_digit].

(** [r'Case\s+[\d:]+[-\w]+\s+Document\s+[\d-]+\s+Filed\s+[\d/]+\s+Page\s+\d+\s+of\s+\d+'] *)
Definition page_pattern : regex :=
  lits "Case" ++ [Rep is_space; Rep digit_or_colon; Rep hyphen_or_word; Rep is_space]
    ++ lits "Document" ++ [Rep is_space; Rep digit_or_hyphen; Rep is_space]
    ++ lits "Filed" ++ [Rep is_space; Rep digit_or_slash; Rep is_space]
    ++ lits "Page" ++ [Rep is_space; Rep is_digit; Rep is_space]
    ++ lits "of" ++ [Rep is_space; Rep is_digit].

Definition extract_case_number (t : text) : option text :=
  match search case_pattern t with
  | Some m => Some (group0 m)
  | None => None
  end.

Definition extract_page_info (t : text) : option Z * option Z :=
  match search page_info_pattern t with
  | Some m =>
      let gs := groups_of page_info_pattern (m_pieces m) in
      (Some (int_of_digits (nth 0 gs [])), Some (int_of_digits (nth 1 gs [])))
  | None => (None, None)
  end.

(** A page: [(page_content, page_num, total_pages)]. *)
Definition page : Type := text * option Z * option Z.

Definition page_of (page_content : text) : page :=
  let '(page_num, total_pages) := extract_page_info page_content in
  (page_content, page_num, total_pages).

(** The loop [for i, marker in enumerate(markers)]: the end of a page is
    the start of the next marker, or the end of the text. *)
Fixpoint pages_loop (content : text) (markers : list rmatch) : list page :=
  match markers with
  | [] => []
  | marker :: rest =>
      let start_pos := m_start marker in
      let end_pos :=
        match rest with
        | next :: _ => m_start next
        | [] => length content
        end in
      page_of (strip (slice content start_pos end_pos))
        :: pages_loop content rest
  end.

Definition split_into_pages (content : text) : list page :=
  match finditer page_pattern content with
  | [] => [page_of content]
  | markers => pages_loop content markers
  end.

(** One output dictionary. *)
Record PageRecord := {
  id : text;
  content : text;
  document_id : text;
  folder : text;
  page_number : Z;
  total_pages : option Z;
  case_number : option text;
  source_file : text
}.

(** [page_num if page_num else idx + 1]: [None] and [0] are both false. *)
Definition page_num_or (page_num : option Z) (idx : nat) : Z :=
  match page_num with
  | Some n => if (n =? 0)%Z then Z.of_nat idx + 1 else n
  | None => Z.of_nat idx + 1
  end.

(** What [pathlib] gives for one file: the parts of its path relative to
    the base directory, and its stem. *)
Record FilePath := { parts : list text; stem : text }.

Definition folder_of (f : FilePath) : text :=
  match parts f with
  | first :: _ :: _ => first
  | _ => lit "root"
  end.

Definition make_record (f : FilePath) (case_no : option text)
  (idx : nat) (p : page) : PageRecord :=
  let '(page_content, page_num, total) := p in
  {| id := stem f ++ lit "_page_" ++ decimal (page_num_or page_num idx);
     content := page_content;
     document_id := stem f;
     folder := folder_of f;
     page_number := page_num_or page_num idx;
     total_pages := total;
     case_number := case_no;
     source_file := join (lit "/") (parts f) |}.

(** The loop [for idx, (...) in enumerate(pages)]. *)
Fixpoint records_loop (f : FilePath) (case_no : option text)
  (idx : nat) (pages : list page) : list PageRecord :=
  match pages with
  | [] => []
  | p :: rest => make_record f case_no idx p :: records_loop f case_no (S idx) rest
  end.

(** [read] is the text of the file, or [None] when opening or decoding it
    raised. *)
Definition process_file (f : FilePath) (read : option text) : list PageRecord :=
  match read with
  | None => []
  | Some text_read =>
      let case_no := extract_case_number (firstn 500 text_read) in
      let pages := split_into_pages text_read in
      records_loop f case_no 0 pages
  end.

End WithUnicode.

End prepare_for_meilisearch.

(** ** JSON *)

(** [len(t.encode('utf-8'))] *)
Definition utf8_width (c : char) : Z :=
  if (c <? 128)%N then 1
  else if (c <? 2048)%N then 2
  else if (c <? 65536)%N then 3
  else 4.

Definition utf8_len (t : text) : Z :=
  fold_right (fun c n => (utf8_width c + n)%Z) 0%Z t.

(** The two calls the partitioner makes on the codec:
    [json.dumps(doc, ensure_ascii=False)] and the text that
    [json.dump(chunk, f, indent=2, ensure_ascii=False)] writes. *)
Class JsonCodec (doc : Type) := {
  dumps : doc -> text;
  dump_indent2 : list doc -> text
}.

Module Json.

(** JSON values as [json.load] returns them, floats apart. *)
Inductive value :=
| JNull
| JBool (b : bool)
| JInt (z : Z)
| JStr (s : text)
| JArr (l : list value)
| JObj (l : list (text * value)).

Definition quote : char := 34%N.
Definition backslash : char := 92%N.
Definition newline : char := 10%N.
Definition space : char := 32%N.

Definition hex_digit (n : N) : char :=
  if (n <? 10)%N then (48 + n)%N else (87 + n)%N.

(** [ESCAPE_DCT] of the encoder with [ensure_ascii=False]. *)
Definition escape_char (c : char) : text :=
  if (c =? quote)%N then [backslash; quote]
  else if (c =? backslash)%N then [backslash; backslash]
  else if (c =? 10)%N then backslash :: lit "n"
  else if (c =? 13)%N then backslash :: lit "r"
  else if (c =? 9)%N then backslash :: lit "t"
  else if (c =? 8)%N then backslash :: lit "b"
  else if (c =? 12)%N then backslash :: lit "f"
  else if (c <? 32)%N then
    backslash :: lit "u00" ++ [hex_digit (c / 16); hex_digit (c mod 16)]
  else [c].

Definition encode_string (s : text) : text :=
  [quote] ++ flat_map escape_char s ++ [quote].

(** [json.dumps(v, ensure_ascii=False)]: separators [', '] and [': ']. *)
Fixpoint encode (v : value) : text :=
  match v with
  | JNull => lit "null"
  | JBool true => lit "true"
  | JBool false => lit "false"
  | JInt z => decimal z
  | JStr s => encode_string s
  | JArr l => lit "[" ++ join (lit ", ") (map encode l) ++ lit "]"
  | JObj l =>
      lit "{"
        ++ join (lit ", ")
             (map (fun kv => encode_string (fst kv) ++ lit ": " ++ encode (snd kv)) l)
        ++ lit "}"
  end.

(** A line break followed by the indentation of nesting level [level]. *)
Definition break (level : nat) : text := newline :: repeat space (2 * level).

(** [json.dumps(v, indent=2, ensure_ascii=False)] for a value at nesting
    level [level]: separators [','] and [': '], empty containers closed at
    once. *)
Fixpoint encode_indent (level : nat) (v : value) : text :=
  match v with
  | JArr [] => lit "[]"
  | JObj [] => lit "{}"
  | JArr l =>
      lit "[" ++ break (S level)
        ++ join (lit "," ++ break (S level)) (map (encode_indent (S level)) l)
        ++ break level ++ lit "]"
  | JObj l =>
      lit "{" ++ break (S level)
        ++ join (lit "," ++ break (S level))
             (map (fun kv =>
                     encode_string (fst kv) ++ lit ": "
                       ++ encode_indent (S level) (snd kv)) l)
        ++ break level ++ lit "}"
  | _ => encode v
  end.

Definition codec : JsonCodec value :=
  {| dumps := encode; dump_indent2 := fun chunk => encode_indent 0 (JArr chunk) |}.

Definition opt (A : Type) (f : A -> value) (o : option A) : value :=
  match o with Some a => f a | None => JNull end.

(** The dictionary [process_file] builds, keys in insertion order. *)
Definition of_record (r : prepare_for_meilisearch.PageRecord) : value :=
  JObj [ (lit "id", JStr (prepare_for_meilisearch.id r));
         (lit "content", JStr (prepare_for_meilisearch.content r));
         (lit "document_id", JStr (prepare_for_meilisearch.document_id r));
         (lit "folder", JStr (prepare_for_meilisearch.folder r));
         (lit "page_number", JInt (prepare_for_meilisearch.page_number r));
         (lit "total_pages", opt JInt (prepare_for_meilisearch.total_pages r));
         (lit "case_number", opt JStr (prepare_for_meilisearch.case_number r));
         (lit "source_file", JStr (prepare_for_meilisearch.source_file r)) ].

End Json.

(** ** split_json.py *)

Module split_json.

Section WithCodec.
Context {doc : Type} {codec : JsonCodec doc}.

(** One file written: [<base_name>_part<part>.json] holding [records];
    its text is [dump_indent2 records]. *)
Record OutFile := { part : Z; records : list doc }.

(** [output_file.stat().st_size] *)
Definition st_size (f : OutFile) : Z := utf8_len (dump_indent2 (records f)).

(** The variables of the loop, and the files written so far in order. *)
Record State := {
  current_chunk : list doc;
  current_size : Z;
  part_num : Z;
  written : list OutFile
}.

Definition initial : State :=
  {| current_chunk := []; current_size := 2; part_num := 1; written := [] |}.

Definition nonempty (l : list doc) : bool :=
  match l with [] => false | _ => true end.

(** [len(doc_json.encode('utf-8')) + 3] *)
Definition doc_size (d : doc) : Z := (utf8_len (dumps d) + 3)%Z.

(** [(current_size + doc_size) / (1024 * 1024)]: the quotient of two
    integers, exact as a rational (and as a float below 2^53). *)
Definition estimated_mb (size : Z) : Q := inject_Z size / inject_Z (1024 * 1024).

(** [estimated_mb > max_size_mb] *)
Definition exceeds (size : Z) (max_size_mb : Q) : bool :=
  negb (Qle_bool (estimated_mb size) max_size_mb).

Definition flush (st : State) : State :=
  {| current_chunk := [];
     current_size := 2;
     part_num := part_num st + 1;
     written := written st ++ [{| part := part_num st; records := current_chunk st |}] |}.

(** One iteration of [for doc in documents]. *)
Definition step (max_size_mb : Q) (st : State) (d : doc) : State :=
  let st' :=
    if nonempty (current_chunk st)
       && exceeds (current_size st + doc_size d) max_size_mb
    then flush st else st in
  {| current_chunk := current_chunk st' ++ [d];
     current_size := (current_size st' + doc_size d)%Z;
     part_num := part_num st';
     written := written st' |}.

(** The files [split_json_file] writes, in the order it writes them. *)
Definition split_json_file (documents : list doc) (max_size_mb : Q) : list OutFile :=
  let st := fold_left (step max_size_mb) documents initial in
  if nonempty (current_chunk st) then written (flush st) else written st.

End WithCodec.

End split_json.

(** ** Vocabulary of the segmenter's properties *)

Module segment_spec.
Import Unicode Re prepare_for_meilisearch.

Section WithUnicode.
Context {ucd : UnicodeData}.

(** Where page [i] ends: at the start of marker [i + 1], or at the end of
    the text for the last marker. *)
Definition page_end (content : text) (markers : list rmatch) (i : nat) : nat :=
  match nth_error markers (S i) with
  | Some next => m_start next
  | None => length content
  end.

(** The literal word Case, white space, digits and colons, then word
    characters and hyphens, each run non-empty. *)
Definition case_token (tok : text) : Prop :=
  exists ws dc wh,
    tok = lit "Case" ++ ws ++ dc ++ wh
    /\ ws <> [] /\ Forall (fun c => is_space c = true) ws
    /\ dc <> [] /\ Forall (fun c => digit_or_colon c = true) dc
    /\ wh <> [] /\ Forall (fun c => hyphen_or_word c = true) wh.

(** [tok] stands somewhere in [s]. *)
Definition substring (tok s : text) : Prop :=
  exists pre rest, s = pre ++ tok ++ rest.

End WithUnicode.

End segment_spec.

(** ** Vocabulary of the partitioner's properties *)

Module partition_spec.
Import split_json.

Section WithCodec.
Context {doc : Type} {codec : JsonCodec doc}.

(** The rest of [split_json_file] after the loop. *)
Definition finish (st : State (doc:=doc)) : list OutFile :=
  if nonempty (current_chunk st) then written (flush st) else written st.

(** The running estimate of a chunk holding [g]: two bytes for the
    brackets and [doc_size] for each record. *)
Definition estimate (g : list doc) : Z :=
  fold_right (fun d n => (doc_size d + n)%Z) 2%Z g.

(** The number of files still to be written when the open chunk is
    non-empty or not ([open]), its estimate is [size], and [l] is left. *)
Fixpoint files_left (max_size_mb : Q) (open : bool) (size : Z) (l : list doc) : nat :=
  match l with
  | [] => if open then 1 else 0
  | d :: l' =>
      if open && exceeds (size + doc_size d) max_size_mb
      then S (files_left max_size_mb true (2 + doc_size d) l')
      else files_left max_size_mb true (size + doc_size d) l'
  end.




(** The size of the file that holds [g], as written. *)
Definition written_size (g : list doc) : Z := utf8_len (dump_indent2 g).

(** A group the estimate lets through: one record at most, or an estimate
    at or under the ceiling. *)
Definition passes (max_size_mb : Q) (g : list doc) : Prop :=
  length g <= 1 \/ exceeds (estimate g) max_size_mb = false.

(** What holds of the loop variables before and after every iteration. *)
Record invariant (max_size_mb : Q) (st : State (doc:=doc)) : Prop := {
  inv_size : current_size st = estimate (current_chunk st);
  inv_part_num : part_num st = Z.of_nat (S (length (written st)));
  inv_parts : map part (written st) = map Z.of_nat (seq 1 (length (written st)));
  inv_nonempty : Forall (fun f => records f <> []) (written st);
  inv_written : Forall (fun f => passes max_size_mb (records f)) (written st);
  inv_chunk : passes max_size_mb (current_chunk st)
}.

End WithCodec.

End partition_spec.

(** ** Concrete inputs *)

Module examples.
Import Unicode Re prepare_for_meilisearch.

Definition nl : text := [10%N].

Definition marker_1_of_2 : text :=
  lit "Case 1:19-cv-03377 Document 1-3 Filed 04/16/19 Page 1 of 2".

Definition marker_2_of_2 : text :=
  lit "Case 1:19-cv-03377 Document 1-3 Filed 04/16/19 Page 2 of 2".

(** A filing of two pages, each under its header line. *)
Definition two_page_text : text :=
  marker_1_of_2 ++ nl ++ lit "first page" ++ nl ++ nl
    ++ marker_2_of_2 ++ nl ++ lit "second page" ++ nl.

(** A text with no header line, with blanks at both ends. *)
Definition padded_text : text := lit "  no marker here " ++ nl.

(** [court/filing.txt] under the base directory. *)
Definition filing : FilePath :=
  {| parts := [lit "court"; lit "filing.txt"]; stem := lit "filing" |}.

Definition filing_records : list PageRecord :=
  Eval vm_compute in process_file (ucd := ascii_only) filing (Some two_page_text).

(** The array the corpus builder writes for that one file. *)
Definition filing_documents : list Json.value :=
  Eval vm_compute in map Json.of_record filing_records.


(** A ceiling of [n] bytes, in the unit of [max_size_mb]. *)
Definition bytes (n : positive) : Q := (Z.pos n # 1048576)%Q.

End examples.

(** ** The callers, and more vocabulary *)

Module corpus_builder.
Import Unicode Re prepare_for_meilisearch.

Section WithUnicode.
Context {ucd : UnicodeData}.

(** [main] of [prepare_for_meilisearch.py]: [txt_files] is what the glob
    gives, each file with what reading it gives; the result is
    [all_documents], the array that is then written. *)
Definition main (txt_files : list (FilePath * option text)) : list PageRecord :=
  fold_left
    (fun all_documents file =>
       all_documents ++ process_file (fst file) (snd file))
    txt_files [].

(** The word Page, white space, digits [d1], white space, the word of,
    white space, digits [d2]. *)
Definition page_token (d1 d2 tok : text) : Prop :=
  exists ws1 ws2 ws3,
    tok = lit "Page" ++ ws1 ++ d1 ++ ws2 ++ lit "of" ++ ws3 ++ d2
    /\ ws1 <> [] /\ Forall (fun c => is_space c = true) ws1
    /\ d1 <> [] /\ Forall (fun c => is_digit c = true) d1
    /\ ws2 <> [] /\ Forall (fun c => is_space c = true) ws2
    /\ ws3 <> [] /\ Forall (fun c => is_space c = true) ws3
    /\ d2 <> [] /\ Forall (fun c => is_digit c = true) d2.

End WithUnicode.

(** The slices [content[start_pos:end_pos]] that the loop over the
    markers takes, before they are trimmed. *)
Fixpoint spans (content : text) (markers : list rmatch) : list text :=
  match markers with
  | [] => []
  | marker :: rest =>
      slice content (m_start marker)
        (match rest with
         | next :: _ => m_start next
         | [] => length content
         end)
        :: spans content rest
  end.

(** [rest] is empty or begins with a character outside the class [p]. *)
Definition stops (p : char -> bool) (rest : text) : Prop :=
  match rest with
  | [] => True
  | c :: _ => p c = false
  end.

End corpus_builder.

Module split_main.
Import split_json.

Section WithCodec.
Context {doc : Type} {codec : JsonCodec doc}.

(** [main] of [split_json.py]: [input] is the decoded array, or [None]
    when the input file does not exist. *)
Definition main (input : option (list doc)) : list OutFile :=
  match input with
  | None => []
  | Some documents => split_json_file documents (18 # 1)%Q
  end.

(** The cut between a file holding [g] and the next one holding [g'] was
    forced: the first record of [g'] did not fit the estimate of [g]. *)
Definition forced (max_size_mb : Q) (g g' : list doc) : Prop :=
  exists d more,
    g' = d :: more
    /\ exceeds (partition_spec.estimate g + doc_size d) max_size_mb = true.

End WithCodec.

End split_main.

(* ================================================================== *)
(** * Part II: properties *)
(* ================================================================== *)

(** ** The partitioner *)

Section Partitioner.
Import split_json partition_spec.
Context {doc : Type} {codec : JsonCodec doc}.
Variable max_size_mb : Q.

Local Abbreviation run := (fold_left (step max_size_mb)).

Lemma utf8_len_nonneg (t : text) : (0 <= utf8_len t)%Z.
Proof.
  induction t as [|c t IH]; simpl; [lia|].
  unfold utf8_width.
  destruct (c <? 128)%N, (c <? 2048)%N, (c <? 65536)%N; lia.
Qed.

Lemma doc_size_pos (d : doc) : (3 <= doc_size d)%Z.
Proof. unfold doc_size. pose proof (utf8_len_nonneg (dumps d)). lia. Qed.

Lemma estimated_mb_le (a b : Z) :
  (a <= b)%Z -> (estimated_mb a <= estimated_mb b)%Q.
Proof.
  intros H. unfold estimated_mb, Qle, Qdiv, Qmult, Qinv, inject_Z. simpl.
  nia.
Qed.

Lemma exceeds_mono (a b : Z) :
  (a <= b)%Z -> exceeds a max_size_mb = true -> exceeds b max_size_mb = true.
Proof.
  unfold exceeds. intros Hab Ha.
  apply negb_true_iff in Ha. apply negb_true_iff.
  destruct (Qle_bool (estimated_mb b) max_size_mb) eqn:E; [|reflexivity].
  apply Qle_bool_iff in E.
  assert (Qle_bool (estimated_mb a) max_size_mb = true) as C.
  { apply Qle_bool_iff. eapply Qle_trans; [apply estimated_mb_le, Hab | exact E]. }
  congruence.
Qed.

Lemma within_mono (a b : Z) :
  (a <= b)%Z -> exceeds b max_size_mb = false -> exceeds a max_size_mb = false.
Proof.
  intros Hab Hb. destruct (exceeds a max_size_mb) eqn:E; [|reflexivity].
  rewrite (exceeds_mono Hab E) in Hb. discriminate.
Qed.

Lemma nonempty_app (l : list doc) (d : doc) : nonempty (l ++ [d]) = true.
Proof. destruct l; reflexivity. Qed.

Lemma estimate_snoc (g : list doc) (d : doc) :
  estimate (g ++ [d]) = (estimate g + doc_size d)%Z.
Proof.
  unfold estimate.
  induction g as [|x g IH]; cbn [app fold_right]; [lia | rewrite IH; lia].
Qed.

Lemma estimate_ge (g : list doc) : (2 <= estimate g)%Z.
Proof.
  unfold estimate.
  induction g as [|x g IH]; cbn [fold_right]; [lia|].
  pose proof (doc_size_pos x). lia.
Qed.

Lemma invariant_initial : invariant max_size_mb initial.
Proof.
  split; cbn; auto. left. cbn. lia.
Qed.

Lemma seq_snoc (n : nat) : seq 1 (S n) = seq 1 n ++ [S n].
Proof. rewrite seq_S. reflexivity. Qed.

Lemma invariant_flush (st : State) :
  invariant max_size_mb st -> current_chunk st <> [] ->
  invariant max_size_mb (flush st).
Proof.
  intros [Hs Hp Hps Hne Hw Hc] Hchunk.
  split; cbn [flush current_chunk current_size part_num written].
  - reflexivity.
  - rewrite length_app, Hp. cbn [length]. lia.
  - rewrite length_app, map_app, Hps. cbn [length map].
    replace (length (written st) + 1) with (S (length (written st))) by lia.
    rewrite seq_snoc, map_app, Hp. reflexivity.
  - apply Forall_app. split; [assumption|]. constructor; [assumption|constructor].
  - apply Forall_app. split; [assumption|]. constructor; [assumption|constructor].
  - left. cbn. lia.
Qed.

Lemma nonempty_true (l : list doc) : nonempty l = true <-> l <> [].
Proof. destruct l; cbn; split; congruence. Qed.

Lemma invariant_step (st : State) (d : doc) :
  invariant max_size_mb st -> invariant max_size_mb (step max_size_mb st d).
Proof.
  intros Hinv. unfold step.
  destruct (nonempty (current_chunk st)) eqn:Hne; cbn [andb].
  - destruct (exceeds (current_size st + doc_size d) max_size_mb) eqn:Hex.
    + apply nonempty_true in Hne.
      destruct (invariant_flush Hinv Hne) as [Hs Hp Hps Hn Hw Hc].
      split; cbn [flush current_chunk current_size part_num written] in *;
        try assumption.
      * unfold estimate. cbn [app fold_right]. lia.
      * left. cbn. lia.
    + destruct Hinv as [Hs Hp Hps Hn Hw Hc].
      split; cbn [current_chunk current_size part_num written]; try assumption.
      * rewrite estimate_snoc, Hs. reflexivity.
      * right. rewrite estimate_snoc, <- Hs. exact Hex.
  - destruct Hinv as [Hs Hp Hps Hn Hw Hc].
    destruct (current_chunk st) eqn:Hck; [|discriminate].
    split; cbn [current_chunk current_size part_num written app]; try assumption.
    + rewrite Hs. unfold estimate. cbn [app fold_right]. lia.
    + left. cbn. lia.
Qed.

Lemma invariant_run (l : list doc) (st : State) :
  invariant max_size_mb st -> invariant max_size_mb (run l st).
Proof.
  revert st. induction l as [|d l IH]; intros st H; cbn [fold_left]; auto.
  apply IH, invariant_step, H.
Qed.

(** Files are only ever appended, and the files still to come hold the
    open chunk followed by the records not yet read. *)
Lemma run_appends (l : list doc) (st : State) :
  exists rest,
    finish (run l st) = written st ++ rest
    /\ concat (map records rest) = current_chunk st ++ l.
Proof.
  revert st. induction l as [|d l IH]; intros st; cbn [fold_left].
  - unfold finish. destruct (nonempty (current_chunk st)) eqn:Hne.
    + eexists. split; [reflexivity|]. cbn. rewrite !app_nil_r. reflexivity.
    + exists []. destruct (current_chunk st); [|discriminate].
      rewrite app_nil_r. split; reflexivity.
  - destruct (IH (step max_size_mb st d)) as (rest & Hfin & Hcat).
    rewrite Hfin. unfold step in *.
    destruct (nonempty (current_chunk st) && exceeds (current_size st + doc_size d) max_size_mb)
      eqn:Hflush; cbn [flush current_chunk written app] in *.
    + rewrite <- app_assoc. eexists. split; [reflexivity|].
      cbn [map concat app records]. rewrite Hcat. reflexivity.
    + exists rest. split; [reflexivity|]. rewrite Hcat, <- app_assoc. reflexivity.
Qed.

Lemma run_count (l : list doc) (st : State) :
  length (finish (run l st))
  = length (written st)
    + files_left max_size_mb (nonempty (current_chunk st)) (current_size st) l.
Proof.
  revert st. induction l as [|d l IH]; intros st; cbn [fold_left files_left].
  - unfold finish. destruct (nonempty (current_chunk st)); cbn [flush written].
    + rewrite length_app. reflexivity.
    + lia.
  - rewrite IH. unfold step.
    destruct (nonempty (current_chunk st) && exceeds (current_size st + doc_size d) max_size_mb)
      eqn:Hflush; cbn [flush current_chunk current_size written app];
      rewrite ?nonempty_app; cbn [nonempty].
    + rewrite length_app. cbn [length]. lia.
    + reflexivity.
Qed.


Lemma split_json_file_unfold (documents : list doc) :
  split_json_file documents max_size_mb = finish (run documents initial).
Proof. reflexivity. Qed.

Lemma invariant_finish (st : State) :
  invariant max_size_mb st ->
  map part (finish st) = map Z.of_nat (seq 1 (length (finish st)))
  /\ Forall (fun f => records f <> []) (finish st)
  /\ Forall (fun f => passes max_size_mb (records f)) (finish st).
Proof.
  intros Hinv. unfold finish.
  destruct (nonempty (current_chunk st)) eqn:Hne.
  - apply nonempty_true in Hne.
    destruct (invariant_flush Hinv Hne); auto.
  - destruct Hinv; auto.
Qed.

Lemma split_json_file_concat (documents : list doc) :
  concat (map records (split_json_file documents max_size_mb)) = documents.
Proof.
  rewrite split_json_file_unfold.
  destruct (run_appends documents initial) as (rest & Hfin & Hrest).
  rewrite Hfin. exact Hrest.
Qed.


(** C10. Every file written holds at least one record, and an empty input
    array writes no file. *)
Theorem partitions_nonempty (documents : list doc) :
  Forall (fun f => records f <> []) (split_json_file documents max_size_mb)
  /\ split_json_file (@nil doc) max_size_mb = [].
Proof.
  split; [|reflexivity].
  rewrite split_json_file_unfold.
  apply invariant_finish, invariant_run, invariant_initial.
Qed.




(** Starting a chunk with a smaller estimate never costs a file, and
    starting with any other estimate costs one file at most. *)
Lemma files_left_compare (l : list doc) :
  (forall a b, (a <= b)%Z ->
     files_left max_size_mb true a l <= files_left max_size_mb true b l)
  /\ (forall a b, (2 <= b)%Z ->
     files_left max_size_mb true a l <= S (files_left max_size_mb true b l)).
Proof.
  induction l as [|d l [IHle IHone]]; cbn [files_left andb].
  - split; intros; lia.
  - pose proof (doc_size_pos d) as Hd. split; intros a b Hab.
    + destruct (exceeds (a + doc_size d) max_size_mb) eqn:Ea.
      * rewrite (exceeds_mono (a := a + doc_size d) (b := b + doc_size d))
          by (lia || exact Ea). lia.
      * destruct (exceeds (b + doc_size d) max_size_mb).
        -- apply IHone. lia.
        -- apply IHle. lia.
    + destruct (exceeds (a + doc_size d) max_size_mb),
               (exceeds (b + doc_size d) max_size_mb).
      * lia.
      * apply le_n_S, IHle. lia.
      * apply Nat.le_trans with (S (files_left max_size_mb true (2 + doc_size d) l));
          [apply IHone|]; lia.
      * apply IHone. lia.
Qed.

Lemma files_left_fresh (l : list doc) (a : Z) :
  files_left max_size_mb true a l <= S (files_left max_size_mb false 2 l).
Proof.
  destruct l as [|d l]; cbn [files_left andb]; [lia|].
  pose proof (doc_size_pos d) as Hd.
  destruct (exceeds (a + doc_size d) max_size_mb); [lia|].
  apply (proj2 (files_left_compare l)). lia.
Qed.

(** No file is closed inside a group whose estimate stays under the ceiling. *)
Lemma files_left_within (g rest : list doc) (a : Z) :
  exceeds (a + (estimate g - 2)) max_size_mb = false ->
  files_left max_size_mb true a (g ++ rest)
  = files_left max_size_mb true (a + (estimate g - 2)) rest.
Proof.
  revert a. unfold estimate.
  induction g as [|d g IH]; intros a Hin; cbn [app fold_right files_left andb] in *.
  - f_equal. lia.
  - pose proof (estimate_ge g) as Hg. unfold estimate in Hg.
    rewrite (within_mono (a := a + doc_size d) (b := a + (doc_size d
              + fold_right (fun d0 n => (doc_size d0 + n)%Z) 2%Z g - 2)))
      by (lia || exact Hin).
    rewrite IH.
    + f_equal. lia.
    + rewrite <- Hin. f_equal. lia.
Qed.

Lemma files_left_group (g rest : list doc) :
  passes max_size_mb g ->
  files_left max_size_mb false 2 (g ++ rest)
  <= S (files_left max_size_mb false 2 rest).
Proof.
  intros Hg. destruct g as [|d g]; [cbn [app]; lia|].
  cbn [app files_left andb].
  destruct Hg as [Hlen | Hest].
  - destruct g; [|cbn in Hlen; lia]. cbn [app]. apply files_left_fresh.
  - rewrite files_left_within.
    + apply files_left_fresh.
    + rewrite <- Hest. f_equal. unfold estimate. cbn [fold_right]. lia.
Qed.

(** The greedy pass needs no more files than any cut the estimate allows. *)
Lemma files_left_least (groups : list (list doc)) :
  Forall (passes max_size_mb) groups ->
  files_left max_size_mb false 2 (concat groups) <= length groups.
Proof.
  induction 1 as [|g groups Hg _ IH]; cbn [concat length]; [cbn; lia|].
  pose proof (files_left_group (concat groups) Hg). lia.
Qed.


End Partitioner.

(** ** The regular-expression reading *)

Section Matching.
Import Re.

Lemma greedy_sound (p : char -> bool) (k : text -> option (list text))
  (s acc : text) (res : list text) :
  greedy p k acc s = Some res ->
  exists w tail ps,
    s = w ++ tail /\ Forall (fun x => p x = true) w
    /\ k tail = Some ps /\ res = (acc ++ w) :: ps.
Proof.
  revert acc. induction s as [|c s IH]; intros acc H; cbn [greedy] in H.
  - destruct (k []) as [ps|] eqn:Hk; [|discriminate].
    injection H as <-. exists [], [], ps. rewrite !app_nil_r. repeat split; auto.
  - assert (option_map (cons acc) (k (c :: s)) = Some res ->
            exists w tail ps, c :: s = w ++ tail /\ Forall (fun x => p x = true) w
              /\ k tail = Some ps /\ res = (acc ++ w) :: ps) as Hstop.
    { intros H'. destruct (k (c :: s)) as [ps|] eqn:Hk; [|discriminate].
      injection H' as <-. exists [], (c :: s), ps. rewrite !app_nil_r.
      repeat split; auto. }
    destruct (p c) eqn:Hp; [|auto].
    destruct (greedy p k (acc ++ [c]) s) as [res'|] eqn:Hg; [|auto].
    injection H as <-.
    destruct (IH _ Hg) as (w & tail & ps & -> & Hw & Hk & ->).
    exists (c :: w), tail, ps. rewrite <- app_assoc. cbn [app].
    repeat split; auto.
Qed.

Lemma match_here_sound (r : regex) (s : text) (ps : list text) :
  match_here r s = Some ps ->
  parses r ps /\ exists rest, s = concat ps ++ rest.
Proof.
  revert s ps. induction r as [|it r IH]; intros s ps H; cbn [match_here] in H.
  - injection H as <-. split; [constructor | exists s; reflexivity].
  - destruct s as [|c s]; [discriminate|].
    destruct (accepts it c) eqn:Hacc; [|discriminate].
    destruct (repeats it) eqn:Hrep.
    + apply greedy_sound in H.
      destruct H as (w & tail & ps' & -> & Hw & Hk & ->).
      destruct (IH _ _ Hk) as (Hps & rest & ->).
      split.
      * constructor; [|exact Hps]. cbn [app].
        apply piece_rep; [exact Hrep | constructor; assumption].
      * exists rest. cbn [concat app]. rewrite <- app_assoc. reflexivity.
    + destruct (match_here r s) as [ps'|] eqn:Hm; [|discriminate].
      injection H as <-.
      destruct (IH _ _ Hm) as (Hps & rest & ->).
      split.
      * constructor; [|exact Hps]. apply piece_one; assumption.
      * exists rest. reflexivity.
Qed.

Lemma greedy_complete (p : char -> bool) (k : text -> option (list text))
  (w tail acc : text) :
  Forall (fun x => p x = true) w -> k tail <> None ->
  greedy p k acc (w ++ tail) <> None.
Proof.
  intros Hw Hk. revert acc.
  induction Hw as [|x w Hx _ IH]; intros acc; cbn [app].
  - destruct (k tail) as [ps|] eqn:Hkt; [|congruence].
    destruct tail as [|c tail]; cbn [greedy]; rewrite ?Hkt; [discriminate|].
    destruct (p c); [|discriminate].
    destruct (greedy p k (acc ++ [c]) tail); discriminate.
  - cbn [greedy]. rewrite Hx.
    specialize (IH (acc ++ [x])).
    destruct (greedy p k (acc ++ [x]) (w ++ tail)); [discriminate|congruence].
Qed.

Lemma match_here_complete (r : regex) (ps : list text) (rest : text) :
  parses r ps -> match_here r (concat ps ++ rest) <> None.
Proof.
  induction 1 as [|it piece r ps Hpiece _ IH]; cbn [match_here concat].
  - discriminate.
  - destruct Hpiece as [it c Hrep Hacc | it c w Hrep Hall];
      rewrite <- app_assoc; cbn [app].
    + rewrite Hacc, Hrep.
      destruct (match_here r (concat ps ++ rest)); [discriminate|congruence].
    + inversion Hall as [|? ? Hc Hw]; subst.
      rewrite Hc, Hrep. apply greedy_complete; assumption.
Qed.

Lemma search_from_sound (r : regex) (s : text) (pos : nat) (m : rmatch) :
  search_from r s pos = Some m ->
  parses r (m_pieces m)
  /\ exists pre rest,
       s = pre ++ group0 m ++ rest /\ m_start m = pos + length pre.
Proof.
  revert pos. induction s as [|c s IH]; intros pos H; cbn [search_from] in H.
  - destruct (match_here r []) as [ps|] eqn:Hm; [|discriminate].
    injection H as <-. destruct (match_here_sound _ _ Hm) as (Hps & rest & Hs).
    split; [exact Hps|]. exists [], rest. cbn. split; [exact Hs | lia].
  - destruct (match_here r (c :: s)) as [ps|] eqn:Hm.
    + injection H as <-. destruct (match_here_sound _ _ Hm) as (Hps & rest & Hs).
      split; [exact Hps|]. exists [], rest. cbn. split; [exact Hs | lia].
    + destruct (IH _ H) as (Hps & pre & rest & -> & Hst).
      split; [exact Hps|]. exists (c :: pre), rest. cbn. split; [reflexivity | lia].
Qed.

Lemma search_sound (r : regex) (s : text) (m : rmatch) :
  search r s = Some m -> found_at r s m.
Proof.
  intros H. destruct (search_from_sound _ _ _ H) as (Hps & pre & rest & Hs & Hst).
  split; [exact Hps|]. exists pre, rest. split; [exact Hs | cbn in Hst; lia].
Qed.

Lemma search_from_complete (r : regex) (ps : list text) (pre rest : text) (pos : nat) :
  parses r ps -> search_from r (pre ++ concat ps ++ rest) pos <> None.
Proof.
  intros Hps. revert pos.
  induction pre as [|c pre IH]; intros pos.
  - cbn [app]. pose proof (match_here_complete rest Hps) as Hm.
    destruct (concat ps ++ rest) eqn:E; cbn [search_from];
      destruct (match_here r _); congruence.
  - cbn [app search_from].
    destruct (match_here r _); [discriminate | apply IH].
Qed.

(** [re.search] returns nothing exactly when no text the pattern can match
    occurs in [s]. *)
Lemma search_none_iff (r : regex) (s : text) :
  search r s = None <-> forall tok, ~ occurs r s tok.
Proof.
  split.
  - intros Hnone tok ((ps & Hps & <-) & pre & rest & ->).
    exact (search_from_complete pre rest 0 Hps Hnone).
  - intros Hno. destruct (search r s) as [m|] eqn:Hs; [|reflexivity].
    destruct (search_sound _ _ Hs) as (Hps & pre & rest & Heq & _).
    exfalso. apply (Hno (group0 m)). split.
    + exists (m_pieces m). split; [exact Hps | reflexivity].
    + exists pre, rest. exact Heq.
Qed.

Lemma HdRel_follows (m : rmatch) (l : list rmatch) (n : nat) :
  m_end m <= n -> Forall (fun m' => n <= m_start m') l -> HdRel follows m l.
Proof.
  intros Hm Hl. destruct Hl as [|m' l Hm' _]; constructor.
  unfold follows. lia.
Qed.

(** Every match [re.finditer] yields parses and stands in [s] where its
    start says, and each one starts at or after the end of the one before. *)
Lemma finditer_from_spec (r : regex) (s : text) (pos skip : nat) :
  Forall (fun m =>
            parses r (m_pieces m)
            /\ exists pre rest,
                 s = pre ++ group0 m ++ rest
                 /\ m_start m = pos + length pre /\ skip <= length pre)
         (finditer_from r s pos skip)
  /\ Sorted follows (finditer_from r s pos skip).
Proof.
  revert pos skip. induction s as [|c s IH]; intros pos skip; cbn [finditer_from].
  - destruct skip; [|split; constructor].
    destruct (match_here r []) as [ps|] eqn:Hm; [|split; constructor].
    destruct (match_here_sound _ _ Hm) as (Hps & rest & Hs).
    split; [|repeat constructor].
    constructor; [|constructor]. split; [exact Hps|].
    exists [], rest. cbn. repeat split; [exact Hs | lia | lia].
  - assert (forall k,
      Forall (fun m => parses r (m_pieces m)
                /\ exists pre rest, s = pre ++ group0 m ++ rest
                     /\ m_start m = S pos + length pre /\ k <= length pre)
             (finditer_from r s (S pos) k) ->
      Forall (fun m => parses r (m_pieces m)
                /\ exists pre rest, c :: s = pre ++ group0 m ++ rest
                     /\ m_start m = pos + length pre /\ S k <= length pre)
             (finditer_from r s (S pos) k)) as Hshift.
    { intros k. apply Forall_impl.
      intros m (Hps & pre & rest & -> & Hst & Hk).
      split; [exact Hps|]. exists (c :: pre), rest. cbn. repeat split; lia. }
    destruct skip as [|k].
    + destruct (match_here r (c :: s)) as [ps|] eqn:Hm.
      * destruct (match_here_sound _ _ Hm) as (Hps & rest & Hs).
        destruct (IH (S pos) (length (concat ps) - 1)) as (Hall & Hsorted).
        split.
        -- constructor.
           ++ split; [exact Hps|]. exists [], rest. cbn. repeat split; [exact Hs | lia | lia].
           ++ eapply Forall_impl; [|apply Hshift, Hall].
              cbn. intros m (Hp & pre & rest' & ? & ? & ?).
              split; [exact Hp|]. exists pre, rest'. repeat split; auto; lia.
        -- constructor; [exact Hsorted|].
           apply HdRel_follows with (n := pos + length (concat ps)).
           ++ unfold m_end, group0. cbn. lia.
           ++ eapply Forall_impl; [|exact Hall].
              cbn. intros m (_ & pre & _ & _ & Hst & Hk). lia.
      * destruct (IH (S pos) 0) as (Hall & Hsorted).
        split; [|exact Hsorted].
        eapply Forall_impl; [|apply Hshift, Hall].
        cbn. intros m (Hp & pre & rest' & ? & ? & ?).
        split; [exact Hp|]. exists pre, rest'. repeat split; auto; lia.
    + destruct (IH (S pos) k) as (Hall & Hsorted).
      split; [apply Hshift, Hall | exact Hsorted].
Qed.

Lemma finditer_spec (r : regex) (s : text) :
  Forall (found_at r s) (finditer r s) /\ Sorted follows (finditer r s).
Proof.
  destruct (finditer_from_spec r s 0 0) as (Hall & Hsorted).
  split; [|exact Hsorted].
  eapply Forall_impl; [|exact Hall].
  cbn. intros m (Hp & pre & rest & Hs & Hst & _).
  split; [exact Hp|]. exists pre, rest. split; [exact Hs | lia].
Qed.

End Matching.

(** ** White space *)

Section Strip.
Import Unicode.
Context {ucd : UnicodeData}.

Lemma lstrip_nonspace (c : char) (s : text) :
  is_space c = false -> lstrip (c :: s) = c :: s.
Proof. intros H. cbn. rewrite H. reflexivity. Qed.

Lemma lstrip_app (a b : text) (x : char) :
  is_space x = false -> lstrip (a ++ x :: b) = lstrip a ++ x :: b.
Proof.
  intros Hx. induction a as [|c a IH].
  - cbn. rewrite Hx. reflexivity.
  - change (lstrip ((c :: a) ++ x :: b))
      with (if is_space c then lstrip (a ++ x :: b) else c :: a ++ x :: b).
    change (lstrip (c :: a)) with (if is_space c then lstrip a else c :: a).
    destruct (is_space c); [exact IH | reflexivity].
Qed.

Lemma rstrip_app (front tail : text) (x : char) :
  is_space x = false ->
  rstrip ((front ++ [x]) ++ tail) = (front ++ [x]) ++ rstrip tail.
Proof.
  intros Hx. unfold rstrip.
  rewrite rev_app_distr, rev_app_distr. cbn [rev app].
  rewrite lstrip_app by exact Hx.
  rewrite rev_app_distr. cbn [rev]. rewrite rev_involutive, <- app_assoc.
  reflexivity.
Qed.

(** Trimming leaves alone a leading text that begins and ends with
    characters that are not white space. *)
Lemma strip_keeps_front (c x : char) (mid tail : text) :
  is_space c = false -> is_space x = false ->
  strip (((c :: mid) ++ [x]) ++ tail) = ((c :: mid) ++ [x]) ++ rstrip tail.
Proof.
  intros Hc Hx. unfold strip. cbn [app].
  rewrite lstrip_nonspace by exact Hc.
  change (c :: (mid ++ [x]) ++ tail) with (((c :: mid) ++ [x]) ++ tail).
  apply rstrip_app, Hx.
Qed.

Lemma digit_not_space (x : char) : is_digit x = true -> is_space x = false.
Proof.
  unfold is_digit, is_ascii, ascii_digit. intros H.
  destruct (is_space x) eqn:Hs; [|reflexivity].
  destruct (x <? 128)%N eqn:Hlt.
  - apply andb_true_iff in H. destruct H as [H1 H2].
    apply N.leb_le in H1, H2. exfalso. revert Hs. unfold is_space.
    rewrite !orb_true_iff, !andb_true_iff, !N.leb_le, !N.eqb_eq. lia.
  - rewrite (decimal_not_space x Hs) in H. discriminate.
Qed.

End Strip.

(** ** The segmenter *)

Section Segmenter.
Import Unicode Re prepare_for_meilisearch segment_spec.
Context {ucd : UnicodeData}.

Lemma page_of_eq (c : text) :
  page_of c = (c, fst (extract_page_info c), snd (extract_page_info c)).
Proof. unfold page_of. destruct (extract_page_info c). reflexivity. Qed.

Lemma page_of_content (c : text) : fst (fst (page_of c)) = c.
Proof. rewrite page_of_eq. reflexivity. Qed.

Lemma pages_loop_length (content : text) (markers : list rmatch) :
  length (pages_loop content markers) = length markers.
Proof. induction markers as [|m ms IH]; cbn [pages_loop length]; congruence. Qed.

Lemma pages_loop_nth (content : text) (markers : list rmatch) (i : nat) (m : rmatch) :
  nth_error markers i = Some m ->
  nth_error (pages_loop content markers) i
  = Some (page_of (strip (slice content (m_start m) (page_end content markers i)))).
Proof.
  revert i. induction markers as [|m0 ms IH]; intros i H.
  - destruct i; discriminate.
  - destruct i as [|i]; cbn [nth_error pages_loop] in *.
    + injection H as ->. unfold page_end. cbn [nth_error].
      destruct ms; reflexivity.
    + rewrite (IH _ H). reflexivity.
Qed.

Lemma sorted_next (ms : list rmatch) (i : nat) (m m' : rmatch) :
  Sorted follows ms ->
  nth_error ms i = Some m -> nth_error ms (S i) = Some m' -> follows m m'.
Proof.
  intros Hs. revert i. induction Hs as [|m0 ms Hs IH Hhd]; intros i Hi Hi'.
  - destruct i; discriminate.
  - destruct i as [|i]; cbn [nth_error] in *.
    + injection Hi as ->. destruct Hhd as [|m1 ms Hrel]; [discriminate|].
      cbn in Hi'. injection Hi' as ->. exact Hrel.
    + eapply IH; eassumption.
Qed.

(** The span of a page begins with the whole text of its marker. *)
Lemma span_begins_with_marker (content : text) (i : nat) (m : rmatch) :
  let markers := finditer page_pattern content in
  nth_error markers i = Some m ->
  exists tail,
    slice content (m_start m) (page_end content markers i) = group0 m ++ tail.
Proof.
  cbv zeta. intros Hi.
  destruct (finditer_spec page_pattern content) as (Hall & Hsorted).
  assert (found_at page_pattern content m) as (_ & pre & rest & Hs & Hst).
  { eapply Forall_forall; [exact Hall | eapply nth_error_In, Hi]. }
  assert (m_end m <= page_end content (finditer page_pattern content) i) as Hend.
  { unfold page_end.
    destruct (nth_error (finditer page_pattern content) (S i)) as [m'|] eqn:Hn.
    - exact (sorted_next _ Hsorted Hi Hn).
    - unfold m_end. apply (f_equal (@length char)) in Hs.
      rewrite !length_app in Hs. lia. }
  remember (page_end content (finditer page_pattern content) i) as e eqn:He.
  clear He Hall Hsorted Hi.
  unfold slice, m_end in *. subst content. rewrite <- Hst in *.
  rewrite skipn_app, skipn_all, Nat.sub_diag.
  cbn [app skipn]. rewrite firstn_app, firstn_all2 by lia.
  eexists. reflexivity.
Qed.

Lemma parses_first (c : char) (r : regex) (ps : list text) :
  parses (Lit c :: r) ps -> exists t, concat ps = c :: t.
Proof.
  intros H. inversion H as [|it p r' ps' Hp _]; subst.
  inversion Hp as [it c' Hrep Hacc | it c' w Hrep _]; subst; [|discriminate].
  cbn in Hacc. apply N.eqb_eq in Hacc. subst. eexists. reflexivity.
Qed.

Lemma parses_last (r : regex) (ps : list text) (p : char -> bool) :
  last r (Lit 0%N) = Rep p -> parses r ps ->
  exists front x, concat ps = front ++ [x] /\ p x = true.
Proof.
  intros Hlast H. induction H as [|it piece r ps Hpiece Hrest IH].
  - discriminate.
  - destruct r as [|it' r].
    + inversion Hrest; subst. cbn in Hlast. subst it.
      inversion Hpiece as [it c Hrep _ | it c w _ Hall]; subst; [discriminate|].
      destruct (exists_last (l := c :: w)) as (front & x & Heq); [discriminate|].
      exists front, x. cbn [concat]. rewrite app_nil_r. split; [exact Heq|].
      rewrite Heq in Hall. apply Forall_app in Hall. destruct Hall as [_ Hx].
      inversion Hx; assumption.
    + destruct (IH Hlast) as (front & x & Heq & Hx).
      exists (piece ++ front), x. cbn [concat]. rewrite Heq, app_assoc. auto.
Qed.

(** A marker text begins with the letter C and ends with a digit. *)
Lemma marker_shape (ps : list text) :
  parses page_pattern ps ->
  exists mid x, concat ps = (67%N :: mid) ++ [x] /\ is_digit x = true.
Proof.
  intros H.
  destruct (parses_first H) as (t & Ht).
  destruct (parses_last (r := page_pattern) (p := is_digit) eq_refl H)
    as (front & x & Hx & Hd).
  destruct front as [|c front].
  - exists [], x. rewrite Hx in Ht. cbn in Ht. injection Ht as -> _.
    pose proof (digit_not_space _ Hd). discriminate.
  - rewrite Hx in Ht. cbn in Ht. injection Ht as -> _.
    exists front, x. auto.
Qed.

Lemma split_into_pages_markers (content : text) :
  finditer page_pattern content <> [] ->
  split_into_pages content = pages_loop content (finditer page_pattern content).
Proof.
  unfold split_into_pages. destruct (finditer page_pattern content); congruence.
Qed.

Lemma split_into_pages_no_marker (content : text) :
  finditer page_pattern content = [] ->
  split_into_pages content = [page_of content].
Proof. unfold split_into_pages. intros ->. reflexivity. Qed.

(** The page made for marker [i]. *)
Lemma marker_page (content : text) (i : nat) (m : rmatch) :
  let markers := finditer page_pattern content in
  nth_error markers i = Some m ->
  let span := slice content (m_start m) (page_end content markers i) in
  found_at page_pattern content m
  /\ nth_error (split_into_pages content) i = Some (page_of (strip span))
  /\ exists tail, span = group0 m ++ tail /\ strip span = group0 m ++ rstrip tail.
Proof.
  cbv zeta. intros Hi.
  assert (found_at page_pattern content m) as Hfound.
  { destruct (finditer_spec page_pattern content) as (Hall & _).
    eapply Forall_forall; [exact Hall | eapply nth_error_In, Hi]. }
  split; [exact Hfound|]. split.
  - rewrite split_into_pages_markers.
    + apply pages_loop_nth, Hi.
    + intros E. rewrite E in Hi. destruct i; discriminate.
  - destruct (span_begins_with_marker content i Hi) as (tail & Hspan).
    exists tail. split; [exact Hspan|]. rewrite Hspan.
    destruct Hfound as (Hps & _).
    destruct (marker_shape Hps) as (mid & x & Hg & Hx).
    unfold group0. rewrite Hg.
    apply strip_keeps_front; [reflexivity | apply digit_not_space, Hx].
Qed.

(** Amended C3. When the scan finds one or more markers there is one page
    per marker; the content of page [i] is the span from the start of
    marker [i] to the start of marker [i + 1] (the end of the text for the
    last one) with white space trimmed at both ends, which leaves the
    whole marker text at its front; the page number and the total are
    extracted from that content. *)
Theorem pages_follow_markers (content : text) :
  let markers := finditer page_pattern content in
  markers <> [] ->
  length (split_into_pages content) = length markers
  /\ forall i m, nth_error markers i = Some m ->
       let span := slice content (m_start m) (page_end content markers i) in
       found_at page_pattern content m
       /\ nth_error (split_into_pages content) i
          = Some (strip span,
                  fst (extract_page_info (strip span)),
                  snd (extract_page_info (strip span)))
       /\ exists tail,
            span = group0 m ++ tail /\ strip span = group0 m ++ rstrip tail.
Proof.
  cbv zeta. intros Hne. split.
  - rewrite split_into_pages_markers by exact Hne. apply pages_loop_length.
  - intros i m Hi. rewrite <- page_of_eq. apply marker_page, Hi.
Qed.

Lemma split_into_pages_shape (content : text) :
  Forall (fun p => p = page_of (fst (fst p))) (split_into_pages content).
Proof.
  unfold split_into_pages.
  assert (forall ms, Forall (fun p => p = page_of (fst (fst p))) (pages_loop content ms)) as H.
  { induction ms as [|m ms IH]; cbn [pages_loop]; constructor; [|exact IH].
    rewrite page_of_content. reflexivity. }
  destruct (finditer page_pattern content) eqn:E; [|apply H].
  constructor; [|constructor]. rewrite page_of_content. reflexivity.
Qed.

Lemma records_loop_nth (f : FilePath) (case_no : option text)
  (pages : list page) (idx i : nat) (r : PageRecord) :
  nth_error (records_loop f case_no idx pages) i = Some r ->
  exists p, nth_error pages i = Some p /\ r = make_record f case_no (idx + i) p.
Proof.
  revert idx i. induction pages as [|p pages IH]; intros idx i H.
  - destruct i; discriminate.
  - destruct i as [|i]; cbn [records_loop nth_error] in *.
    + injection H as <-. exists p. rewrite Nat.add_0_r. auto.
    + destruct (IH _ _ H) as (p' & Hp & ->). exists p'.
      split; [exact Hp|]. f_equal. lia.
Qed.

Lemma make_record_fields (f : FilePath) (case_no : option text) (idx : nat) (c : text) :
  let r := make_record f case_no idx (page_of c) in
  content r = c
  /\ case_number r = case_no
  /\ page_number r = page_num_or (fst (extract_page_info c)) idx.
Proof.
  cbv zeta. rewrite page_of_eq. cbn. auto.
Qed.

(** A record of a file: its position, the text of its page, and what the
    segmenter and the case-number search gave it. *)
Lemma process_file_nth (f : FilePath) (text_read : text) (idx : nat) (r : PageRecord) :
  nth_error (process_file f (Some text_read)) idx = Some r ->
  nth_error (split_into_pages text_read) idx = Some (page_of (content r))
  /\ case_number r = extract_case_number (firstn 500 text_read)
  /\ page_number r = page_num_or (fst (extract_page_info (content r))) idx.
Proof.
  unfold process_file. intros H.
  destruct (records_loop_nth _ _ _ _ _ H) as (p & Hp & ->).
  pose proof (split_into_pages_shape text_read) as Hshape.
  rewrite Forall_forall in Hshape.
  specialize (Hshape p (nth_error_In _ _ Hp)).
  rewrite Hshape in *.
  destruct (make_record_fields f (extract_case_number (firstn 500 text_read))
              (0 + idx) (fst (fst p))) as (Hc & Hn & Hpn).
  rewrite Hc, Hn, Hpn. cbn [Nat.add]. repeat split; auto.
Qed.

Lemma int_of_digits_nonneg (s : text) : (0 <= int_of_digits s)%Z.
Proof.
  unfold int_of_digits.
  assert (forall acc, (0 <= acc)%Z ->
            (0 <= fold_left (fun a c => 10 * a + Z.of_N (digit_value c)) s acc)%Z) as H.
  { induction s as [|c s IH]; intros acc Hacc; cbn [fold_left]; [exact Hacc|].
    apply IH. pose proof (N2Z.is_nonneg (digit_value c)). lia. }
  apply H. lia.
Qed.

Lemma extract_page_info_nonneg (t : text) (n : Z) :
  fst (extract_page_info t) = Some n -> (0 <= n)%Z.
Proof.
  unfold extract_page_info.
  destruct (search page_info_pattern t); cbn [fst]; [|discriminate].
  intros H. injection H as <-. apply int_of_digits_nonneg.
Qed.

Lemma page_num_or_positive (page_num : option Z) (idx : nat) :
  (forall n, page_num = Some n -> 0 <= n)%Z -> (1 <= page_num_or page_num idx)%Z.
Proof.
  intros H. unfold page_num_or. destruct page_num as [n|]; [|lia].
  specialize (H n eq_refl). destruct (n =? 0)%Z eqn:E; [lia|].
  apply Z.eqb_neq in E. lia.
Qed.

(** C8. The page number of the record at position [idx] (counted from 0)
    of a file that was read is at least 1: it is the number parsed from
    the Page X of Y text of the record's own content when there is one and
    it is not zero, and [idx + 1] otherwise. *)
Theorem page_number_at_least_one (f : FilePath) (text_read : text)
  (idx : nat) (r : PageRecord) :
  nth_error (process_file f (Some text_read)) idx = Some r ->
  (1 <= page_number r)%Z
  /\ page_number r
     = match fst (extract_page_info (content r)) with
       | Some n => if (n =? 0)%Z then (Z.of_nat idx + 1)%Z else n
       | None => (Z.of_nat idx + 1)%Z
       end.
Proof.
  intros H. destruct (process_file_nth _ _ _ H) as (_ & _ & Hpn).
  rewrite Hpn. split; [|reflexivity].
  apply page_num_or_positive. intros n. apply extract_page_info_nonneg.
Qed.

Lemma marker_text_nonempty (content : text) (m : rmatch) :
  found_at page_pattern content m -> group0 m <> [].
Proof.
  intros (Hps & _). destruct (marker_shape Hps) as (mid & x & Hg & _).
  unfold group0. rewrite Hg. discriminate.
Qed.

(** Amended C9. Every record of a file that was read and whose text is
    not empty has a content that is not empty. *)
Theorem content_nonempty (f : FilePath) (text_read : text) (r : PageRecord) :
  text_read <> [] ->
  In r (process_file f (Some text_read)) ->
  content r <> [].
Proof.
  intros Hne Hin. apply In_nth_error in Hin. destruct Hin as (idx & Hidx).
  destruct (process_file_nth _ _ _ Hidx) as (Hpage & _).
  destruct (finditer page_pattern text_read) as [|m0 ms] eqn:Hms.
  - rewrite (split_into_pages_no_marker _ Hms) in Hpage.
    destruct idx as [|[|idx]]; cbn in Hpage; try discriminate.
    injection Hpage as Hpage. apply (f_equal (fun p => fst (fst p))) in Hpage.
    rewrite !page_of_content in Hpage. congruence.
  - assert (idx < length (finditer page_pattern text_read)) as Hlt.
    { rewrite <- (pages_loop_length text_read), <- split_into_pages_markers
        by (rewrite Hms; discriminate).
      apply nth_error_Some. congruence. }
    destruct (nth_error (finditer page_pattern text_read) idx) as [m|] eqn:Hm;
      [|apply nth_error_None in Hm; lia].
    destruct (marker_page text_read idx Hm) as (Hfound & Hp & tail & _ & Hstrip).
    rewrite Hp in Hpage. injection Hpage as Hpage.
    apply (f_equal (fun p => fst (fst p))) in Hpage.
    rewrite !page_of_content in Hpage. rewrite <- Hpage, Hstrip.
    pose proof (marker_text_nonempty Hfound) as Hg.
    destruct (group0 m); [congruence | discriminate].
Qed.

Lemma piece_lit (c : char) (w : text) : piece_ok (Lit c) w -> w = [c].
Proof.
  intros H. inversion H as [it c' _ Hacc | it c' w' Hrep _]; subst; [|discriminate].
  cbn in Hacc. apply N.eqb_eq in Hacc. congruence.
Qed.

Lemma piece_rep_inv (p : char -> bool) (w : text) :
  piece_ok (Rep p) w -> w <> [] /\ Forall (fun x => p x = true) w.
Proof.
  intros H. inversion H as [it c Hrep _ | it c w' _ Hall]; subst; [discriminate|].
  split; [discriminate | exact Hall].
Qed.

Lemma piece_rep_intro (p : char -> bool) (w : text) :
  w <> [] -> Forall (fun x => p x = true) w -> piece_ok (Rep p) w.
Proof.
  intros Hne Hall. destruct w as [|c w]; [congruence|].
  apply piece_rep; [reflexivity | exact Hall].
Qed.

Lemma piece_lit_intro (c : char) : piece_ok (Lit c) [c].
Proof. apply piece_one; [reflexivity | apply N.eqb_refl]. Qed.

(** The texts [case_pattern] can match are the case tokens. *)
Lemma case_token_iff (tok : text) :
  case_token tok <-> exists ps, parses case_pattern ps /\ concat ps = tok.
Proof.
  split.
  - intros (ws & dc & wh & -> & Hws & Aws & Hdc & Adc & Hwh & Awh).
    exists (map (fun c => [c]) (lit "Case") ++ [ws; dc; wh]). split.
    + repeat (apply Forall2_cons; [apply piece_lit_intro|]).
      repeat (apply Forall2_cons; [apply piece_rep_intro; assumption|]).
      constructor.
    + cbn. rewrite app_nil_r. reflexivity.
  - intros (ps & Hps & <-). unfold parses, case_pattern in Hps. cbn in Hps.
    repeat match goal with
           | H : Forall2 _ (_ :: _) _ |- _ => inversion H; subst; clear H
           | H : Forall2 _ [] _ |- _ => inversion H; subst; clear H
           | H : piece_ok (Lit _) _ |- _ => apply piece_lit in H; subst
           | H : piece_ok (Rep _) _ |- _ => apply piece_rep_inv in H; destruct H
           end.
    do 3 eexists. cbn. rewrite app_nil_r.
    split; [reflexivity|]. repeat split; assumption.
Qed.

(** C6. The case number of every record of a file is the result of one
    search of the first 500 characters of the file's text.  When the
    search finds something it is a case token standing in those 500
    characters, and it finds nothing exactly when no case token stands in
    them, whatever the text holds after them. *)
Theorem case_number_from_first_500 (f : FilePath) (text_read : text) :
  let head := firstn 500 text_read in
  (forall r, In r (process_file f (Some text_read)) ->
     case_number r = extract_case_number head)
  /\ (forall tok, extract_case_number head = Some tok ->
        case_token tok /\ substring tok head)
  /\ (extract_case_number head = None <->
        forall tok, case_token tok -> ~ substring tok head).
Proof.
  cbv zeta. split; [|split].
  - intros r Hin. apply In_nth_error in Hin. destruct Hin as (idx & Hidx).
    apply (process_file_nth _ _ _ Hidx).
  - intros tok. unfold extract_case_number.
    destruct (search case_pattern (firstn 500 text_read)) as [m|] eqn:Hs; [|discriminate].
    intros H. injection H as <-.
    destruct (search_sound _ _ Hs) as (Hps & pre & rest & Heq & _).
    split.
    + apply case_token_iff. exists (m_pieces m). split; [exact Hps | reflexivity].
    + exists pre, rest. exact Heq.
  - unfold extract_case_number.
    pose proof (search_none_iff case_pattern (firstn 500 text_read)) as Hiff.
    destruct (search case_pattern (firstn 500 text_read)) as [m|] eqn:Hs.
    + split; [discriminate|]. intros Hno. exfalso.
      destruct Hiff as [_ Hback].
      assert (Some m = None) as Habs; [|discriminate].
      apply Hback. intros tok (Hparse & Hsub).
      apply (Hno tok); [apply case_token_iff, Hparse | exact Hsub].
    + split; [|reflexivity]. intros _ tok Htok Hsub.
      destruct Hiff as [Hfwd _]. apply (Hfwd eq_refl tok).
      split; [apply case_token_iff, Htok | exact Hsub].
Qed.

End Segmenter.

(** ** The properties on concrete inputs *)

Section Concrete.
Import Unicode Re prepare_for_meilisearch segment_spec split_json partition_spec examples.

Local Abbreviation split_json_value := (split_json_file (codec := Json.codec)).

(** C2, on the code: with a ceiling of 529 bytes the two records of the
    filing fit the estimate, so they go to one file; written with
    indentation that file has 603 bytes, although each record would fill
    a file of its own of 302 and 303 bytes. *)
Theorem partition_written_over_ceiling :
  map records (split_json_value filing_documents (bytes 529)) = [filing_documents]
  /\ map (st_size (codec := Json.codec))
       (split_json_value filing_documents (bytes 529)) = [603%Z]
  /\ exceeds 603 (bytes 529) = true
  /\ map (fun d => written_size (codec := Json.codec) [d]) filing_documents
     = [302%Z; 303%Z].
Proof. vm_compute. repeat split; reflexivity. Qed.



Local Abbreviation pages_of := (split_into_pages (ucd := ascii_only)).
Local Abbreviation records_of := (process_file (ucd := ascii_only)).
Local Abbreviation markers_of := (finditer (page_pattern (ucd := ascii_only))).

Lemma filing_records_eq :
  filing_records = records_of filing (Some two_page_text)
  /\ filing_documents = map Json.of_record filing_records.
Proof. split; vm_compute; reflexivity. Qed.

(** C3 as stated fails: the two markers of the filing start at offsets 0
    and 71, and the span between them ends with two line breaks that the
    content of the first page does not have. *)
Lemma page_content_is_not_the_span :
  map m_start (markers_of two_page_text) = [0; 71]
  /\ map (fun p => fst (fst p)) (pages_of two_page_text)
     = [marker_1_of_2 ++ nl ++ lit "first page";
        marker_2_of_2 ++ nl ++ lit "second page"]
  /\ slice two_page_text 0 71 = (marker_1_of_2 ++ nl ++ lit "first page") ++ nl ++ nl
  /\ nth 0 (map (fun p => fst (fst p)) (pages_of two_page_text)) []
     <> slice two_page_text 0 71.
Proof. vm_compute. repeat split; try reflexivity. discriminate. Qed.

Lemma pages_follow_markers_witness :
  markers_of two_page_text <> []
  /\ length (pages_of two_page_text) = length (markers_of two_page_text).
Proof.
  assert (markers_of two_page_text <> []) as H by (vm_compute; discriminate).
  split; [exact H|].
  exact (proj1 (@pages_follow_markers ascii_only two_page_text H)).
Defined.

(** C7, on the code: a text without marker is one page whose content is
    the text as read, blanks and line break included; trimmed it would be
    shorter. *)
Theorem unmarked_text_not_trimmed :
  map content (records_of filing (Some padded_text)) = [padded_text]
  /\ markers_of padded_text = []
  /\ strip padded_text = lit "no marker here"
  /\ padded_text = lit "  no marker here " ++ nl.
Proof. vm_compute. repeat split; reflexivity. Qed.

Lemma page_number_at_least_one_witness :
  nth_error (records_of filing (Some two_page_text)) 1 = nth_error filing_records 1
  /\ (1 <= page_number (nth 1 filing_records (nth 0 filing_records
        {| id := []; content := []; document_id := []; folder := [];
           page_number := 0; total_pages := None; case_number := None;
           source_file := [] |})))%Z.
Proof.
  split; [vm_compute; reflexivity|].
  refine (proj1 (@page_number_at_least_one ascii_only filing two_page_text 1 _ _)).
  vm_compute; reflexivity.
Defined.

(** C9 as stated fails: an empty file gives one record, and its content
    is empty. *)
Lemma empty_file_empty_content :
  map content (records_of filing (Some [])) = [[]]
  /\ map page_number (records_of filing (Some [])) = [1%Z].
Proof. vm_compute. split; reflexivity. Qed.

Lemma content_nonempty_witness :
  two_page_text <> []
  /\ Forall (fun r => content r <> []) (records_of filing (Some two_page_text)).
Proof.
  assert (two_page_text <> []) as H by (vm_compute; discriminate).
  split; [exact H|].
  apply Forall_forall. intros r Hr.
  exact (@content_nonempty ascii_only filing two_page_text r H Hr).
Defined.

End Concrete.

(** ** More on the regular-expression reading *)

Section MatchingMore.
Import Re corpus_builder.

(** [re.search] finds the match that starts first. *)
Lemma search_from_leftmost (r : regex) (ps : list text) (pre rest s : text)
  (pos : nat) (m : rmatch) :
  parses r ps -> s = pre ++ concat ps ++ rest ->
  search_from r s pos = Some m -> m_start m <= pos + length pre.
Proof.
  intros Hps. revert s pos. induction pre as [|c pre IH]; intros s pos -> H.
  - cbn [app] in H. pose proof (match_here_complete rest Hps) as Hm.
    destruct (concat ps ++ rest) eqn:E; cbn [search_from] in H;
      destruct (match_here r _); try congruence;
      injection H as <-; cbn; lia.
  - cbn [app search_from] in H.
    destruct (match_here r _).
    + injection H as <-. cbn. lia.
    + specialize (IH _ _ eq_refl H). cbn [length]. lia.
Qed.

Lemma greedy_last (p : char -> bool) (s acc : text) (res : list text) :
  greedy p (match_here []) acc s = Some res ->
  exists w rest,
    s = w ++ rest /\ res = [acc ++ w] /\ stops p rest.
Proof.
  revert acc. induction s as [|c s IH]; intros acc H; cbn [greedy] in H.
  - cbn in H. injection H as <-. exists [], []. rewrite !app_nil_r.
    cbn. repeat split; auto.
  - destruct (p c) eqn:Hp.
    + destruct (greedy p (match_here []) (acc ++ [c]) s) as [res'|] eqn:Hg.
      * injection H as <-. destruct (IH _ Hg) as (w & rest & -> & -> & Hstop).
        exists (c :: w), rest. rewrite <- app_assoc. cbn [app].
        repeat split; auto.
      * exfalso. revert Hg.
        apply (@greedy_complete p (match_here []) [] s (acc ++ [c])).
        -- constructor.
        -- cbn. discriminate.
    + cbn in H. injection H as <-. exists [], (c :: s).
      rewrite !app_nil_r. cbn. repeat split; auto.
Qed.

(** When the pattern ends with a greedy class, the match takes the whole
    run: what follows the match does not begin with a character of it. *)
Lemma match_here_last_run (r : regex) (s : text) (ps : list text) :
  repeats (last r (Lit 0%N)) = true ->
  match_here r s = Some ps ->
  exists rest, s = concat ps ++ rest /\ stops (accepts (last r (Lit 0%N))) rest.
Proof.
  revert s ps. induction r as [|it r IH]; intros s ps Hlast H.
  - discriminate.
  - cbn [match_here] in H. destruct s as [|c s]; [discriminate|].
    destruct (accepts it c) eqn:Hacc; [|discriminate].
    destruct r as [|it' r].
    + cbn [last] in *. rewrite Hlast in H.
      destruct (greedy_last _ _ _ H) as (w & rest & -> & -> & Hstop).
      exists rest. cbn [concat app]. rewrite app_nil_r. auto.
    + change (last (it :: it' :: r) (Lit 0%N)) with (last (it' :: r) (Lit 0%N)) in *.
      destruct (repeats it).
      * apply greedy_sound in H.
        destruct H as (w & tail & ps' & -> & _ & Hk & ->).
        destruct (IH _ _ Hlast Hk) as (rest & -> & Hstop).
        exists rest. cbn [concat app]. rewrite <- !app_assoc. auto.
      * destruct (match_here (it' :: r) s) as [ps'|] eqn:Hm; [|discriminate].
        injection H as <-.
        destruct (IH _ _ Hlast Hm) as (rest & -> & Hstop).
        exists rest. auto.
Qed.

Lemma search_from_last_run (r : regex) (s : text) (pos : nat) (m : rmatch) :
  repeats (last r (Lit 0%N)) = true ->
  search_from r s pos = Some m ->
  exists pre rest,
    s = pre ++ group0 m ++ rest /\ m_start m = pos + length pre
    /\ stops (accepts (last r (Lit 0%N))) rest.
Proof.
  intros Hlast. revert pos. induction s as [|c s IH]; intros pos H; cbn [search_from] in H.
  - destruct (match_here r []) as [ps|] eqn:Hm; [|discriminate].
    injection H as <-. destruct (match_here_last_run _ _ Hlast Hm) as (rest & Hs & Hstop).
    exists [], rest. cbn. repeat split; auto.
  - destruct (match_here r (c :: s)) as [ps|] eqn:Hm.
    + injection H as <-. destruct (match_here_last_run _ _ Hlast Hm) as (rest & Hs & Hstop).
      exists [], rest. cbn. repeat split; auto.
    + destruct (IH _ H) as (pre & rest & -> & Hst & Hstop).
      exists (c :: pre), rest. cbn. repeat split; auto. lia.
Qed.

(** [re.finditer] yields nothing exactly when [re.search] finds nothing. *)
Lemma finditer_from_nil (r : regex) (s : text) (pos : nat) :
  finditer_from r s pos 0 = [] <-> search_from r s pos = None.
Proof.
  revert pos. induction s as [|c s IH]; intros pos; cbn [finditer_from search_from].
  - destruct (match_here r []); split; congruence.
  - destruct (match_here r (c :: s)); [split; congruence | apply IH].
Qed.

End MatchingMore.

From Stdlib Require DecimalZ DecimalPos.

(** ** More on the segmenter *)

Section SegmenterMore.
Import Unicode Re prepare_for_meilisearch segment_spec corpus_builder.
Context {ucd : UnicodeData}.

Lemma piece_cap_inv (p : char -> bool) (w : text) :
  piece_ok (Cap p) w -> w <> [] /\ Forall (fun x => p x = true) w.
Proof.
  intros H. inversion H as [it c Hrep _ | it c w' _ Hall]; subst; [discriminate|].
  split; [discriminate | exact Hall].
Qed.

Lemma piece_cap_intro (p : char -> bool) (w : text) :
  w <> [] -> Forall (fun x => p x = true) w -> piece_ok (Cap p) w.
Proof.
  intros Hne Hall. destruct w as [|c w]; [congruence|].
  apply piece_rep; [reflexivity | exact Hall].
Qed.

Ltac invert_parse :=
  repeat match goal with
         | H : Forall2 _ (_ :: _) _ |- _ => inversion H; subst; clear H
         | H : Forall2 _ [] _ |- _ => inversion H; subst; clear H
         | H : piece_ok (Lit _) _ |- _ => apply piece_lit in H; subst
         | H : piece_ok (Rep _) _ |- _ => apply piece_rep_inv in H; destruct H
         | H : piece_ok (Cap _) _ |- _ => apply piece_cap_inv in H; destruct H
         end.

(** The texts [page_info_pattern] can match are the page tokens, and its
    two groups are the two runs of digits. *)
Lemma page_token_parses (d1 d2 tok : text) :
  page_token d1 d2 tok ->
  exists ps, parses page_info_pattern ps /\ concat ps = tok.
Proof.
  intros (ws1 & ws2 & ws3 & -> & ? & ? & ? & ? & ? & ? & ? & ? & ? & ?).
  exists (map (fun c => [c]) (lit "Page") ++ [ws1; d1; ws2]
          ++ map (fun c => [c]) (lit "of") ++ [ws3; d2]).
  split.
  - repeat (apply Forall2_cons; [apply piece_lit_intro|]).
    apply Forall2_cons; [apply piece_rep_intro; assumption|].
    apply Forall2_cons; [apply piece_cap_intro; assumption|].
    apply Forall2_cons; [apply piece_rep_intro; assumption|].
    repeat (apply Forall2_cons; [apply piece_lit_intro|]).
    apply Forall2_cons; [apply piece_rep_intro; assumption|].
    apply Forall2_cons; [apply piece_cap_intro; assumption|].
    constructor.
  - cbn. rewrite app_nil_r. reflexivity.
Qed.

Lemma parses_page_token (ps : list text) :
  parses page_info_pattern ps ->
  page_token (nth 0 (groups_of page_info_pattern ps) [])
             (nth 1 (groups_of page_info_pattern ps) []) (concat ps).
Proof.
  intros Hps. unfold parses, page_info_pattern in Hps. cbn in Hps.
  invert_parse. cbn. rewrite app_nil_r.
  do 3 eexists. split; [reflexivity|]. repeat split; assumption.
Qed.

(** X1. [extract_page_info] finds nothing exactly when no page token
    stands in the text.  Otherwise it returns the values of the two digit
    runs of a page token of the text: one that starts where the first page
    token starts, and whose second run of digits is not cut short. *)
Theorem page_info_is_first_page_token (t : text) :
  (extract_page_info t = (None, None)
   <-> forall d1 d2 tok, page_token d1 d2 tok -> ~ substring tok t)
  /\ (extract_page_info t <> (None, None) ->
      exists d1 d2 tok pre rest,
        page_token d1 d2 tok /\ t = pre ++ tok ++ rest
        /\ extract_page_info t = (Some (int_of_digits d1), Some (int_of_digits d2))
        /\ stops is_digit rest
        /\ forall d1' d2' tok' pre' rest',
             page_token d1' d2' tok' -> t = pre' ++ tok' ++ rest' ->
             length pre <= length pre').
Proof.
  unfold extract_page_info.
  destruct (search page_info_pattern t) as [m|] eqn:Hs.
  - destruct (search_sound _ _ Hs) as (Hps & pre0 & rest0 & Heq0 & _).
    split.
    + split; [discriminate|]. intros Hno. exfalso.
      apply (Hno _ _ _ (parses_page_token Hps)). exists pre0, rest0. exact Heq0.
    + intros _.
      destruct (search_from_last_run page_info_pattern t 0 eq_refl Hs)
        as (pre & rest & Heq & Hst & Hstop).
      exists (nth 0 (groups_of page_info_pattern (m_pieces m)) []),
             (nth 1 (groups_of page_info_pattern (m_pieces m)) []),
             (group0 m), pre, rest.
      split; [apply parses_page_token, Hps|]. split; [exact Heq|].
      split; [reflexivity|]. split; [exact Hstop|].
      intros d1' d2' tok' pre' rest' Htok Ht.
      destruct (page_token_parses Htok) as (ps' & Hps' & <-).
      pose proof (search_from_leftmost pre' rest' 0 Hps' Ht Hs).
      cbn in Hst. lia.
  - split; [|congruence]. split; [|reflexivity].
    intros _ d1 d2 tok Htok (pre & rest & Heq).
    destruct (page_token_parses Htok) as (ps & Hps & <-).
    subst t. exact (search_from_complete pre rest 0 Hps Hs).
Qed.

(** X2. The case number found in a text is the case token that starts
    first in it, taken to the end of its run of word characters and
    hyphens. *)
Theorem case_number_is_first_token (t tok : text) :
  extract_case_number t = Some tok ->
  exists pre rest,
    t = pre ++ tok ++ rest
    /\ case_token tok
    /\ stops hyphen_or_word rest
    /\ forall tok' pre' rest',
         case_token tok' -> t = pre' ++ tok' ++ rest' ->
         length pre <= length pre'.
Proof.
  unfold extract_case_number.
  destruct (search case_pattern t) as [m|] eqn:Hs; [|discriminate].
  intros H. injection H as <-.
  destruct (search_sound _ _ Hs) as (Hps & _).
  destruct (search_from_last_run case_pattern t 0 eq_refl Hs)
    as (pre & rest & Heq & Hst & Hstop).
  exists pre, rest. split; [exact Heq|]. split.
  { apply case_token_iff. exists (m_pieces m). split; [exact Hps | reflexivity]. }
  split; [exact Hstop|].
  intros tok' pre' rest' Htok Ht.
  apply case_token_iff in Htok. destruct Htok as (ps' & Hps' & <-).
  pose proof (search_from_leftmost pre' rest' 0 Hps' Ht Hs).
  cbn in Hst. lia.
Qed.

Lemma records_loop_length (f : FilePath) (case_no : option text)
  (idx : nat) (pages : list page) :
  length (records_loop f case_no idx pages) = length pages.
Proof.
  revert idx. induction pages as [|p pages IH]; intros idx; cbn [records_loop length];
    [reflexivity | rewrite IH; reflexivity].
Qed.

(** X3. A file that cannot be read gives no record.  A file that was read
    gives one record per marker found, and one record when none is found. *)
Theorem record_count (f : FilePath) (t : text) :
  process_file f None = []
  /\ length (process_file f (Some t))
     = Nat.max 1 (length (finditer page_pattern t)).
Proof.
  split; [reflexivity|].
  unfold process_file. rewrite records_loop_length.
  destruct (finditer page_pattern t) as [|m ms] eqn:Hms.
  - rewrite (split_into_pages_no_marker _ Hms). reflexivity.
  - rewrite split_into_pages_markers by (rewrite Hms; discriminate).
    rewrite pages_loop_length, Hms. cbn [length]. lia.
Qed.

Lemma no_marker_iff (t : text) :
  finditer page_pattern t = [] <-> forall tok, ~ occurs page_pattern t tok.
Proof.
  unfold finditer. rewrite finditer_from_nil. apply search_none_iff.
Qed.

(** X4. A text in which no text that the marker pattern matches stands is
    one page: the whole text, unchanged, with the page information found
    anywhere in it. *)
Theorem unmarked_text_is_one_page (t : text) :
  (forall tok, ~ occurs page_pattern t tok) ->
  split_into_pages t
  = [(t, fst (extract_page_info t), snd (extract_page_info t))].
Proof.
  intros Hno. apply no_marker_iff in Hno.
  rewrite (split_into_pages_no_marker _ Hno), page_of_eq. reflexivity.
Qed.

Lemma lstrip_suffix (s : text) : exists pre, s = pre ++ lstrip s.
Proof.
  induction s as [|c s (pre & IH)]; [exists []; reflexivity|].
  cbn [lstrip]. destruct (is_space c).
  - exists (c :: pre). cbn [app]. congruence.
  - exists []. reflexivity.
Qed.

Lemma strip_substring (s : text) : substring (strip s) s.
Proof.
  unfold strip, rstrip. destruct (lstrip_suffix s) as (pre & Hs).
  destruct (lstrip_suffix (rev (lstrip s))) as (post & Hr).
  exists pre, (rev post).
  apply (f_equal (@rev char)) in Hr. rewrite rev_involutive, rev_app_distr in Hr.
  rewrite <- Hr. exact Hs.
Qed.

Lemma slice_substring (s : text) (a b : nat) : substring (slice s a b) s.
Proof.
  unfold slice. exists (firstn a s), (skipn (b - a) (skipn a s)).
  rewrite firstn_skipn, firstn_skipn. reflexivity.
Qed.

Lemma substring_trans (a b c : text) : substring a b -> substring b c -> substring a c.
Proof.
  intros (p1 & r1 & ->) (p2 & r2 & ->).
  exists (p2 ++ p1), (r1 ++ r2). rewrite <- !app_assoc. reflexivity.
Qed.

(** Where the content of a record comes from. *)
Lemma record_content_cases (f : FilePath) (t : text) (idx : nat) (r : PageRecord) :
  nth_error (process_file f (Some t)) idx = Some r ->
  (finditer page_pattern t = [] /\ idx = 0 /\ content r = t)
  \/ exists m tail,
       nth_error (finditer page_pattern t) idx = Some m
       /\ found_at page_pattern t m
       /\ content r = strip (slice t (m_start m) (page_end t (finditer page_pattern t) idx))
       /\ content r = group0 m ++ rstrip tail.
Proof.
  intros Hidx. destruct (process_file_nth _ _ _ Hidx) as (Hpage & _).
  destruct (finditer page_pattern t) as [|m0 ms] eqn:Hms.
  - left. rewrite (split_into_pages_no_marker _ Hms) in Hpage.
    destruct idx as [|[|idx]]; cbn in Hpage; try discriminate.
    injection Hpage as Hpage. apply (f_equal (fun p => fst (fst p))) in Hpage.
    rewrite !page_of_content in Hpage. auto.
  - right. rewrite <- Hms in *.
    assert (idx < length (finditer page_pattern t)) as Hlt.
    { rewrite <- (pages_loop_length t), <- split_into_pages_markers
        by (rewrite Hms; discriminate).
      apply nth_error_Some. congruence. }
    destruct (nth_error (finditer page_pattern t) idx) as [m|] eqn:Hm;
      [|apply nth_error_None in Hm; lia].
    destruct (marker_page t idx Hm) as (Hfound & Hp & tail & _ & Hstrip).
    rewrite Hp in Hpage. injection Hpage as Hpage.
    apply (f_equal (fun p => fst (fst p))) in Hpage.
    rewrite !page_of_content in Hpage.
    exists m, tail. repeat split; try apply Hfound; congruence.
Qed.

(** X5. The content of every record of a file stands in the text of the
    file: a page is cut out of the text, nothing is added or changed. *)
Theorem content_stands_in_text (f : FilePath) (t : text) (r : PageRecord) :
  In r (process_file f (Some t)) -> substring (content r) t.
Proof.
  intros Hin. apply In_nth_error in Hin. destruct Hin as (idx & Hidx).
  destruct (record_content_cases _ _ _ Hidx)
    as [(_ & _ & ->) | (m & tail & _ & _ & -> & _)].
  - exists [], []. rewrite app_nil_r. reflexivity.
  - eapply substring_trans; [apply strip_substring | apply slice_substring].
Qed.

(** A marker text ends with a page token. *)
Lemma marker_contains_page_token (ps : list text) :
  parses page_pattern ps ->
  exists pre ps', parses page_info_pattern ps' /\ concat ps = pre ++ concat ps'.
Proof.
  intros H. unfold parses in H.
  rewrite <- (firstn_skipn 27 page_pattern) in H.
  apply Forall2_app_inv_l in H. destruct H as (l1 & l2 & _ & H2 & ->).
  exists (concat l1), l2. split; [|apply concat_app].
  cbn in H2. invert_parse. unfold parses, page_info_pattern. cbn.
  repeat (apply Forall2_cons;
          [first [ apply piece_lit_intro
                 | apply piece_rep_intro; assumption
                 | apply piece_cap_intro; assumption ]|]).
  constructor.
Qed.

Lemma page_info_found (t pre rest : text) (ps : list text) :
  parses page_info_pattern ps -> t = pre ++ concat ps ++ rest ->
  exists n total,
    extract_page_info t = (Some n, Some total) /\ (0 <= total)%Z.
Proof.
  intros Hps ->. unfold extract_page_info.
  pose proof (search_from_complete pre rest 0 Hps) as Hs.
  fold (search page_info_pattern (pre ++ concat ps ++ rest)) in Hs.
  destruct (search page_info_pattern (pre ++ concat ps ++ rest)); [|congruence].
  do 2 eexists. split; [reflexivity | apply int_of_digits_nonneg].
Qed.

Lemma page_info_none (t : text) :
  (forall d1 d2 tok, page_token d1 d2 tok -> ~ substring tok t) ->
  extract_page_info t = (None, None).
Proof.
  intros Hno. unfold extract_page_info.
  destruct (search page_info_pattern t) as [m|] eqn:Hs; [|reflexivity].
  destruct (search_sound _ _ Hs) as (Hps & pre & rest & Heq & _).
  exfalso. apply (Hno _ _ _ (parses_page_token Hps)). exists pre, rest. exact Heq.
Qed.

(** The fields of a record that do not depend on its page. *)
Lemma process_file_fields (f : FilePath) (t : text) (idx : nat) (r : PageRecord) :
  nth_error (process_file f (Some t)) idx = Some r ->
  id r = stem f ++ lit "_page_" ++ decimal (page_number r)
  /\ document_id r = stem f
  /\ folder r = folder_of f
  /\ source_file r = join (lit "/") (parts f)
  /\ total_pages r = snd (extract_page_info (content r)).
Proof.
  unfold process_file. intros H.
  destruct (records_loop_nth _ _ _ _ _ H) as (p & Hp & ->).
  pose proof (split_into_pages_shape t) as Hshape.
  rewrite Forall_forall in Hshape.
  specialize (Hshape p (nth_error_In _ _ Hp)).
  rewrite Hshape, page_of_eq. cbn. auto.
Qed.

(** X6. In a file where a marker stands, every record has a page number
    and a total that were parsed from its own content: the content begins
    with a marker, and a marker ends with a page token. *)
Theorem marked_file_records_have_page_info (f : FilePath) (t : text) (r : PageRecord) :
  (exists tok, occurs page_pattern t tok) ->
  In r (process_file f (Some t)) ->
  exists n total,
    extract_page_info (content r) = (Some n, Some total)
    /\ total_pages r = Some total /\ (0 <= total)%Z.
Proof.
  intros (tok & Htok) Hin. apply In_nth_error in Hin. destruct Hin as (idx & Hidx).
  destruct (process_file_fields _ _ _ Hidx) as (_ & _ & _ & _ & Htotal).
  destruct (record_content_cases _ _ _ Hidx)
    as [(Hnone & _) | (m & tail & _ & (Hps & _) & _ & Hcontent)].
  - exact (False_ind _ (proj1 (no_marker_iff t) Hnone tok Htok)).
  - destruct (marker_contains_page_token Hps) as (pre & ps' & Hps' & Hcat).
    destruct (page_info_found (t := content r) pre (rstrip tail) Hps')
      as (n & total & Hinfo & Hpos).
    { rewrite Hcontent. unfold group0. rewrite Hcat, <- app_assoc. reflexivity. }
    exists n, total. rewrite Htotal, Hinfo. auto.
Qed.

Lemma lit_injective (a b : string) : lit a = lit b -> a = b.
Proof.
  revert b. induction a as [|x a IH]; intros [|y b] H; cbn in H; try discriminate.
  - reflexivity.
  - injection H as Hxy Hab. f_equal; [|apply IH, Hab].
    rewrite <- (ascii_N_embedding x), <- (ascii_N_embedding y), Hxy. reflexivity.
Qed.

(** [str] of two different integers gives two different texts. *)
Lemma decimal_injective (a b : Z) : decimal a = decimal b -> a = b.
Proof.
  unfold decimal. intros H. apply lit_injective in H.
  assert (forall z, Z.to_int z <> Decimal.Pos Decimal.Nil
                    /\ Z.to_int z <> Decimal.Neg Decimal.Nil) as Hnil.
  { intros [|q|q]; cbn; split; try discriminate;
      intros E; injection E; apply DecimalPos.Unsigned.to_uint_nonnil. }
  apply DecimalZ.to_int_inj.
  destruct (Hnil a) as (Ha1 & Ha2). destruct (Hnil b) as (Hb1 & Hb2).
  pose proof (NilZero.isi _ Ha1 Ha2) as Ia. pose proof (NilZero.isi _ Hb1 Hb2) as Ib.
  rewrite H in Ia. congruence.
Qed.

(** X7. The id of a record is the stem of its file, [_page_] and its page
    number in decimal; so two records of one file have the same id exactly
    when they have the same page number. *)
Theorem ids_follow_page_numbers (f : FilePath) (t : text) (r1 r2 : PageRecord) :
  In r1 (process_file f (Some t)) ->
  In r2 (process_file f (Some t)) ->
  id r1 = stem f ++ lit "_page_" ++ decimal (page_number r1)
  /\ (id r1 = id r2 <-> page_number r1 = page_number r2).
Proof.
  intros H1 H2. apply In_nth_error in H1, H2.
  destruct H1 as (i1 & H1). destruct H2 as (i2 & H2).
  destruct (process_file_fields _ _ _ H1) as (Hid1 & _).
  destruct (process_file_fields _ _ _ H2) as (Hid2 & _).
  split; [exact Hid1|]. rewrite Hid1, Hid2. split.
  - intros H. apply app_inv_head in H. apply app_inv_head in H.
    apply decimal_injective, H.
  - intros ->. reflexivity.
Qed.

(** X8. A file that was read and in which no page token stands gives
    exactly one record: the whole text, page number 1, no total, the id
    ending in [_page_1]. *)
Theorem file_without_page_token (f : FilePath) (t : text) :
  (forall d1 d2 tok, page_token d1 d2 tok -> ~ substring tok t) ->
  process_file f (Some t)
  = [ {| id := stem f ++ lit "_page_1";
         content := t;
         document_id := stem f;
         folder := folder_of f;
         page_number := 1;
         total_pages := None;
         case_number := extract_case_number (firstn 500 t);
         source_file := join (lit "/") (parts f) |} ].
Proof.
  intros Hno.
  assert (finditer page_pattern t = []) as Hnone.
  { apply no_marker_iff. intros tok ((ps & Hps & <-) & pre & rest & Heq).
    destruct (marker_contains_page_token Hps) as (pre' & ps' & Hps' & Hcat).
    apply (Hno _ _ _ (parses_page_token Hps')).
    exists (pre ++ pre'), rest. rewrite Heq, Hcat, <- !app_assoc. reflexivity. }
  unfold process_file.
  rewrite (split_into_pages_no_marker _ Hnone), page_of_eq, (page_info_none Hno).
  reflexivity.
Qed.

Lemma main_from (files : list (FilePath * option text)) (acc : list PageRecord) :
  fold_left (fun all_documents file =>
               all_documents ++ process_file (fst file) (snd file)) files acc
  = acc ++ flat_map (fun file => process_file (fst file) (snd file)) files.
Proof.
  revert acc. induction files as [|file files IH]; intros acc; cbn [fold_left flat_map].
  - rewrite app_nil_r. reflexivity.
  - rewrite IH, <- app_assoc. reflexivity.
Qed.

(** X9. The corpus is the concatenation, in the order of the traversal,
    of the records of each file; the files that could not be read can be
    left out without changing it; and its length is the sum, over the
    files that were read, of the number of markers found, counted as one
    where none is found. *)
Theorem corpus_is_concatenation (txt_files : list (FilePath * option text)) :
  main txt_files
  = flat_map (fun file => process_file (fst file) (snd file)) txt_files
  /\ main txt_files
     = main (filter (fun file => match snd file with Some _ => true | None => false end)
               txt_files)
  /\ length (main txt_files)
     = list_sum
         (map (fun file =>
                 match snd file with
                 | Some t => Nat.max 1 (length (finditer page_pattern t))
                 | None => 0
                 end) txt_files).
Proof.
  unfold main. rewrite !main_from. cbn [app].
  split; [reflexivity|]. split.
  - induction txt_files as [|[f [t|]] files IH]; cbn [filter flat_map snd fst].
    + reflexivity.
    + rewrite IH. reflexivity.
    + exact IH.
  - induction txt_files as [|[f [t|]] files IH];
      cbn [flat_map map list_sum snd fst]; [reflexivity| |exact IH].
    match goal with
    | |- context [list_sum (?a :: ?l)] =>
        change (list_sum (a :: l)) with (a + list_sum l)
    end.
    rewrite length_app, IH. f_equal.
    unfold process_file. rewrite records_loop_length.
    destruct (finditer page_pattern t) as [|m ms] eqn:Hms.
    + rewrite (split_into_pages_no_marker _ Hms). reflexivity.
    + rewrite split_into_pages_markers by (rewrite Hms; discriminate).
      rewrite pages_loop_length, Hms. cbn [length]. lia.
Qed.

Lemma pages_loop_spans (t : text) (markers : list rmatch) :
  pages_loop t markers = map (fun span => page_of (strip span)) (spans t markers).
Proof.
  induction markers as [|m ms IH]; cbn [pages_loop spans map]; [reflexivity|].
  rewrite IH. reflexivity.
Qed.

Lemma spans_tile (t : text) (m : rmatch) (ms : list rmatch) :
  Sorted follows (m :: ms) ->
  concat (spans t (m :: ms)) = skipn (m_start m) t.
Proof.
  revert m. induction ms as [|m' ms IH]; intros m Hs.
  - cbn [spans concat]. rewrite app_nil_r. unfold slice. apply firstn_all2.
    rewrite length_skipn. lia.
  - inversion Hs as [|? ? Hs' Hhd]; subst.
    inversion Hhd as [|? ? Hrel]; subst.
    change (spans t (m :: m' :: ms))
      with (slice t (m_start m) (m_start m') :: spans t (m' :: ms)).
    cbn [concat]. rewrite (IH m' Hs'). unfold slice, follows, m_end in *.
    replace (m_start m') with ((m_start m' - m_start m) + m_start m) at 2 by lia.
    rewrite <- skipn_skipn. apply firstn_skipn.
Qed.

(** X16. When markers are found, the pages are the trimmed slices of the
    text taken from one marker to the next, and those slices, in order,
    make up the text from the start of the first marker to its end: what
    stands before the first marker is in no page. *)
Theorem slices_cover_text_from_first_marker (t : text) (m : rmatch) (ms : list rmatch) :
  finditer page_pattern t = m :: ms ->
  split_into_pages t
  = map (fun span => (strip span,
                      fst (extract_page_info (strip span)),
                      snd (extract_page_info (strip span))))
      (spans t (m :: ms))
  /\ concat (spans t (m :: ms)) = skipn (m_start m) t.
Proof.
  intros Hms. split.
  - rewrite split_into_pages_markers by (rewrite Hms; discriminate).
    rewrite Hms, pages_loop_spans. apply map_ext. intros span. apply page_of_eq.
  - apply spans_tile. rewrite <- Hms. apply finditer_spec.
Qed.

Lemma marker_occurs (t : text) :
  finditer page_pattern t <> [] -> exists tok, occurs page_pattern t tok.
Proof.
  intros Hne. destruct (finditer_spec page_pattern t) as (Hall & _).
  destruct (finditer page_pattern t) as [|m ms]; [congruence|].
  inversion Hall as [|? ? Hfound _]; subst.
  destruct Hfound as (Hps & pre & rest & Heq & _).
  exists (group0 m). split.
  - exists (m_pieces m). split; [exact Hps | reflexivity].
  - exists pre, rest. exact Heq.
Qed.

Lemma no_page_token (t : text) :
  search page_info_pattern t = None ->
  forall d1 d2 tok, page_token d1 d2 tok -> ~ substring tok t.
Proof.
  intros Hs d1 d2 tok Htok (pre & rest & ->).
  destruct (page_token_parses Htok) as (ps & Hps & <-).
  exact (search_from_complete pre rest 0 Hps Hs).
Qed.

End SegmenterMore.

(** ** More on the partitioner *)

Section PartitionerMore.
Import split_json partition_spec split_main.
Context {doc : Type} {codec : JsonCodec doc}.

Local Abbreviation run m := (fold_left (step m)).

(** X10. Every file that holds two records or more has a running
    estimate at or under the ceiling. *)
Theorem shared_files_within_estimate (documents : list doc) (max_size_mb : Q)
  (f : OutFile) :
  In f (split_json_file documents max_size_mb) ->
  2 <= length (records f) ->
  exceeds (estimate (records f)) max_size_mb = false.
Proof.
  intros Hin Hlen.
  pose proof (invariant_finish (invariant_run documents (invariant_initial max_size_mb)))
    as (_ & _ & Hpass).
  rewrite Forall_forall in Hpass. destruct (Hpass f Hin) as [H|H]; [lia | exact H].
Qed.

Lemma sorted_consecutive (A : Type) (R : A -> A -> Prop) (l : list A)
  (i : nat) (x y : A) :
  Sorted R l -> nth_error l i = Some x -> nth_error l (S i) = Some y -> R x y.
Proof.
  intros Hs. revert i. induction Hs as [|a l Hs IH Hhd]; intros i Hi Hi'.
  - destruct i; discriminate.
  - destruct i as [|i]; cbn [nth_error] in *.
    + injection Hi as ->. destruct Hhd as [|b l Hrel]; [discriminate|].
      cbn in Hi'. injection Hi' as ->. exact Hrel.
    + eapply IH; eassumption.
Qed.

Lemma run_forced (max_size_mb : Q) (l : list doc) (st : State) :
  invariant max_size_mb st -> current_chunk st <> [] ->
  exists more rest,
    map records (finish (run max_size_mb l st))
    = map records (written st) ++ (current_chunk st ++ more) :: rest
    /\ Sorted (forced max_size_mb) ((current_chunk st ++ more) :: rest).
Proof.
  revert st. induction l as [|d l IH]; intros st Hinv Hne; cbn [fold_left].
  - exists [], []. unfold finish.
    rewrite (proj2 (nonempty_true _) Hne). cbn [flush written].
    rewrite map_app, app_nil_r. cbn [map records]. split; [reflexivity|].
    repeat constructor.
  - pose proof (invariant_step d Hinv) as Hinv'.
    assert (current_chunk (step max_size_mb st d) <> []) as Hne'.
    { unfold step. cbn [current_chunk]. intros E.
      apply app_eq_nil in E. destruct E as [_ E]. discriminate E. }
    destruct (IH _ Hinv' Hne') as (more & rest & Heq & Hsorted).
    rewrite Heq. clear Heq IH. unfold step in *.
    rewrite (proj2 (nonempty_true _) Hne) in *. cbn [andb] in *.
    destruct (exceeds (current_size st + doc_size d) max_size_mb) eqn:Hex;
      cbn [flush current_chunk written app] in *.
    + exists [], (([d] ++ more) :: rest).
      rewrite map_app, app_nil_r, <- app_assoc. cbn [map records app].
      split; [reflexivity|].
      constructor; [exact Hsorted|]. constructor.
      exists d, more. split; [reflexivity|].
      rewrite <- (inv_size Hinv). exact Hex.
    + exists (d :: more), rest. rewrite <- app_assoc in *. cbn [app] in *.
      split; [reflexivity | exact Hsorted].
Qed.

(** X11. Every cut between two files was forced: the running estimate of
    the earlier file, with the first record of the later file added, is
    over the ceiling. *)
Theorem cuts_are_forced (documents : list doc) (max_size_mb : Q)
  (i : nat) (g g' : list doc) :
  nth_error (map records (split_json_file documents max_size_mb)) i = Some g ->
  nth_error (map records (split_json_file documents max_size_mb)) (S i) = Some g' ->
  forced max_size_mb g g'.
Proof.
  rewrite split_json_file_unfold.
  destruct documents as [|d l]; [destruct i; discriminate|].
  cbn [fold_left].
  assert (invariant max_size_mb (step max_size_mb initial d)) as Hinv
    by apply invariant_step, invariant_initial.
  destruct (run_forced l Hinv) as (more & rest & Heq & Hsorted);
    [discriminate|].
  rewrite Heq. cbn [initial step nonempty andb current_chunk written map app].
  apply sorted_consecutive. exact Hsorted.
Qed.



Lemma within_ceiling_mono (size : Z) (a b : Q) :
  (a <= b)%Q -> exceeds size a = false -> exceeds size b = false.
Proof.
  unfold exceeds. intros Hab H.
  apply negb_false_iff in H. apply negb_false_iff.
  apply Qle_bool_iff in H. apply Qle_bool_iff.
  eapply Qle_trans; eassumption.
Qed.

(** X13. Raising the ceiling never gives more files. *)
Theorem larger_ceiling_no_more_files (documents : list doc) (a b : Q) :
  (a <= b)%Q ->
  length (split_json_file documents b) <= length (split_json_file documents a).
Proof.
  intros Hab.
  pose proof (invariant_finish (invariant_run documents (invariant_initial a)))
    as (_ & _ & Hpass).
  rewrite <- split_json_file_unfold in Hpass.
  assert (Forall (passes b) (map records (split_json_file documents a))) as Hb.
  { rewrite Forall_map. eapply Forall_impl; [|exact Hpass].
    cbn. intros f [H|H]; [left; exact H | right].
    eapply within_ceiling_mono; eassumption. }
  pose proof (files_left_least Hb) as Hleast.
  rewrite split_json_file_concat in Hleast.
  rewrite (split_json_file_unfold b documents), run_count.
  cbn [initial written length nonempty current_chunk current_size Nat.add].
  rewrite length_map in Hleast. exact Hleast.
Qed.

Lemma length_concat_nonempty (A : Type) (groups : list (list A)) :
  Forall (fun g => g <> []) groups -> length groups <= length (concat groups).
Proof.
  induction 1 as [|g groups Hg _ IH]; cbn [concat length]; [lia|].
  rewrite length_app. destruct g; [congruence | cbn [length]; lia].
Qed.

(** X14. There are never more files than records. *)
Theorem no_more_files_than_records (documents : list doc) (max_size_mb : Q) :
  length (split_json_file documents max_size_mb) <= length documents.
Proof.
  pose proof (invariant_finish (invariant_run documents (invariant_initial max_size_mb)))
    as (_ & Hne & _).
  rewrite <- split_json_file_unfold in Hne.
  rewrite <- (split_json_file_concat max_size_mb documents) at 2.
  rewrite <- (length_map records).
  apply length_concat_nonempty. rewrite Forall_map. exact Hne.
Qed.



End PartitionerMore.

(** ** The further properties on concrete inputs *)

Section ConcreteMore.
Import Unicode Re prepare_for_meilisearch segment_spec corpus_builder.
Import split_json partition_spec split_main examples.

Local Abbreviation records_of := (process_file (ucd := ascii_only)).
Local Abbreviation split_json_value := (split_json_file (codec := Json.codec)).

(** A text that names two cases. *)
Lemma case_number_is_first_token_witness :
  exists pre rest,
    lit "see Case 1:19-cv-03377 and Case 2:20-cv-1" = pre ++ lit "Case 1:19-cv-03377" ++ rest
    /\ case_token (ucd := ascii_only) (lit "Case 1:19-cv-03377")
    /\ stops (hyphen_or_word (ucd := ascii_only)) rest
    /\ forall tok' pre' rest',
         case_token (ucd := ascii_only) tok' ->
         lit "see Case 1:19-cv-03377 and Case 2:20-cv-1" = pre' ++ tok' ++ rest' ->
         length pre <= length pre'.
Proof.
  apply (@case_number_is_first_token ascii_only
           (lit "see Case 1:19-cv-03377 and Case 2:20-cv-1") (lit "Case 1:19-cv-03377")).
  vm_compute; reflexivity.
Defined.

Lemma unmarked_text_is_one_page_witness :
  split_into_pages (ucd := ascii_only) padded_text = [(padded_text, None, None)].
Proof.
  refine (eq_trans (@unmarked_text_is_one_page ascii_only padded_text _) _).
  - apply no_marker_iff. vm_compute; reflexivity.
  - vm_compute; reflexivity.
Defined.

Lemma content_stands_in_text_witness :
  Forall (fun r => substring (content r) two_page_text)
    (records_of filing (Some two_page_text)).
Proof.
  apply Forall_forall. intros r Hr.
  exact (@content_stands_in_text ascii_only filing two_page_text r Hr).
Defined.

Lemma marked_file_records_have_page_info_witness :
  Forall (fun r => exists n total,
            extract_page_info (ucd := ascii_only) (content r) = (Some n, Some total)
            /\ total_pages r = Some total /\ (0 <= total)%Z)
    (records_of filing (Some two_page_text)).
Proof.
  apply Forall_forall. intros r Hr.
  apply (@marked_file_records_have_page_info ascii_only filing two_page_text r);
    [|exact Hr].
  apply marker_occurs. vm_compute; discriminate.
Defined.

Lemma ids_follow_page_numbers_witness :
  Forall (fun r1 =>
            Forall (fun r2 => id r1 = id r2 <-> page_number r1 = page_number r2)
              (records_of filing (Some two_page_text)))
    (records_of filing (Some two_page_text)).
Proof.
  apply Forall_forall. intros r1 H1. apply Forall_forall. intros r2 H2.
  exact (proj2 (@ids_follow_page_numbers ascii_only filing two_page_text r1 r2 H1 H2)).
Defined.

Lemma slices_cover_text_from_first_marker_witness :
  concat (spans (lit "cover sheet " ++ two_page_text)
            (finditer (page_pattern (ucd := ascii_only))
               (lit "cover sheet " ++ two_page_text)))
  = two_page_text.
Proof.
  destruct (finditer (page_pattern (ucd := ascii_only))
              (lit "cover sheet " ++ two_page_text)) as [|m ms] eqn:Hms;
    [vm_compute in Hms; discriminate Hms|].
  rewrite (proj2 (@slices_cover_text_from_first_marker ascii_only _ m ms Hms)).
  assert (m_start m = 12) as ->
    by (vm_compute in Hms; injection Hms as <- _; reflexivity).
  reflexivity.
Defined.

Lemma file_without_page_token_witness :
  map page_number (records_of filing (Some padded_text)) = [1%Z]
  /\ map id (records_of filing (Some padded_text)) = [lit "filing_page_1"].
Proof.
  rewrite (@file_without_page_token ascii_only filing padded_text).
  - split; reflexivity.
  - apply no_page_token. vm_compute; reflexivity.
Defined.

Lemma shared_files_within_estimate_witness :
  exceeds (estimate (codec := Json.codec) filing_documents) (bytes 529) = false.
Proof.
  apply (@shared_files_within_estimate Json.value Json.codec filing_documents (bytes 529)
           {| part := 1; records := filing_documents |}).
  - left. vm_compute; reflexivity.
  - vm_compute. lia.
Defined.

Lemma cuts_are_forced_witness :
  forced (codec := Json.codec) (bytes 100)
    [nth 0 filing_documents Json.JNull] [nth 1 filing_documents Json.JNull].
Proof.
  apply (@cuts_are_forced Json.value Json.codec filing_documents (bytes 100) 0);
    vm_compute; reflexivity.
Defined.


Lemma larger_ceiling_no_more_files_witness :
  length (split_json_value filing_documents (bytes 529))
  <= length (split_json_value filing_documents (bytes 100)).
Proof.
  apply (@larger_ceiling_no_more_files Json.value Json.codec filing_documents
           (bytes 100) (bytes 529)).
  vm_compute. discriminate.
Defined.


End ConcreteMore.
